(** * time-audit: the time-accounting engine

    A shallow embedding of the interval arithmetic, the day aggregator, the
    hierarchy resolver, the derived statistics and the timer commands of the
    time-audit application, with the properties its specification states.

    Conventions of the embedding.
    - A JavaScript [number] holding a millisecond timestamp or a duration is
      an integer of [Z]; [null] and [undefined] are [None].
    - A ['YYYY-MM-DD'] string names a local calendar day; it is represented
      by the number of that day (the count of days since 1970-01-01), so
      that the next calendar day is [d + 1].
    - The host's local time is a parameter, [TimeZone]: [midnight tz d] is
      what [new Date(d + 'T00:00:00').getTime()] returns, [dayOf tz t] is
      the calendar day [new Date(t)] falls on.  The loops that step a
      [Date] from one local midnight to the next are modelled as stepping
      the day; that is what they do unless a clock change skips a local
      midnight, as in a zone that sets its clocks forward at 00:00.  Such
      zones are outside the model: which days a range has is stated for
      zones whose days have 24 hours ([uniformDays]), and the example at a
      change of clocks is in New York, where the clocks change at 02:00.
    - A [Map<string, string>] is a finite map [gmap string string] and a
      [Set<string>] a [gset string].  A plain object used as a
      [Record<string, number>] is the finite map of its own properties,
      read with [readOr0] and written with [assign], which account for the
      properties every object inherits from [Object.prototype]. *)

From Stdlib Require Import QArith.
From stdpp Require Import gmap strings list fin_maps relations.
From stdpp Require Import pretty.

Local Open Scope Z_scope.

(** ** Local time *)

Record TimeZone := mkTimeZone {
  midnight : Z → Z;  (* calendar day ↦ epoch ms of its local 00:00:00.000 *)
  dayOf : Z → Z      (* epoch ms ↦ calendar day in local time *)
}.

Definition MS_PER_DAY : Z := 24 * 60 * 60 * 1000.
Definition MS_PER_HOUR : Z := 60 * 60 * 1000.

(** A zone at a fixed offset from UTC ([offset] ms east of Greenwich). *)
Definition fixedOffset (offset : Z) : TimeZone :=
  {| midnight d := d * MS_PER_DAY - offset;
     dayOf t := (t + offset) `div` MS_PER_DAY |}.

Definition utc : TimeZone := fixedOffset 0.

(** A zone with one daylight-saving change: four hours behind UTC up to
    and including day [fallBack], whose night sets the clocks back by one
    hour, and five hours behind UTC after it.  With [fallBack = 20030] this
    is New York around 2024-11-03. *)
Definition fallBackZone (fallBack : Z) : TimeZone :=
  {| midnight d :=
       if bool_decide (d ≤ fallBack) then d * MS_PER_DAY + 4 * MS_PER_HOUR
       else d * MS_PER_DAY + 5 * MS_PER_HOUR;
     dayOf t :=
       if bool_decide (t < (fallBack + 1) * MS_PER_DAY + 5 * MS_PER_HOUR)
       then Z.min fallBack ((t - 4 * MS_PER_HOUR) `div` MS_PER_DAY)
       else (t - 5 * MS_PER_HOUR) `div` MS_PER_DAY |}.

Definition newYork2024 : TimeZone := fallBackZone 20030.

(** Every local day of the zone lasts exactly 24 hours. *)
Definition uniformDays (tz : TimeZone) : Prop :=
  ∀ d, midnight tz (d + 1) = midnight tz d + MS_PER_DAY.

(** [dayOf] and [midnight] describe the same calendar. *)
Definition coherent (tz : TimeZone) : Prop :=
  ∀ t, midnight tz (dayOf tz t) ≤ t < midnight tz (dayOf tz t + 1).

(** ** Data model (types.ts) *)

Record TimeInterval := mkInterval {
  iv_start : Z;
  iv_end : option Z   (* null = currently running *)
}.

Record Session := mkSession {
  s_id : string;
  s_taskId : string;
  s_intervals : list TimeInterval;
  s_note : option string
}.

Inductive ItemType := folder | task.

Record Category := mkCategory {
  c_id : string;
  c_type : ItemType;
  c_name : string;
  c_color : string;
  c_parentId : option string;
  c_order : Z
}.

(** What a property of a plain object, or a running total, holds where
    the declared type is [number]: a number, or a string.  [+] gives a
    string as soon as one of its operands is not a number; in this program
    that happens only through a property inherited from
    [Object.prototype], so every such string holds the source text of a
    function or ["[object Object]"]: it is not the text of a number, and
    its text is not modelled. *)
Inductive Value := number (n : Z) | text.

(** [DayData]; [T] is what [totalMs] holds: a number in the aggregator,
    which adds numbers only, a [Value] after the merge. *)
Record DayData (T : Type) := mkDayData {
  date : Z;
  totalMs : T;
  byTask : gmap string Value
}.
Arguments mkDayData {T} _ _ _.
Arguments date {T} _.
Arguments totalMs {T} _.
Arguments byTask {T} _.

Global Instance Value_eq_dec : EqDecision Value.
Proof. solve_decision. Defined.

Global Instance TimeInterval_eq_dec : EqDecision TimeInterval.
Proof. solve_decision. Defined.
Global Instance Session_eq_dec : EqDecision Session.
Proof. solve_decision. Defined.
Global Instance ItemType_eq_dec : EqDecision ItemType.
Proof. solve_decision. Defined.

(** ** analyticsUtils.ts: interval arithmetic and the day aggregator *)

(** [dateRange]: the loop [while (cur <= endDate) { push; cur.setDate(+1) }].
    Two [Date] objects at local midnight compare as their days do, and
    [setDate] takes a [Date] at local midnight to the next local midnight.
    That is so in every zone in which no clock change skips a local
    midnight; where one does, [cur] is an hour past midnight from that day
    on and the loop can leave out the last day of the range.  What is
    stated about the days returned is stated for zones whose days have 24
    hours. *)
Fixpoint dateRange_loop (fuel : nat) (cur endDate : Z) : list Z :=
  match fuel with
  | O => []
  | S fuel' =>
      if bool_decide (cur ≤ endDate)
      then cur :: dateRange_loop fuel' (cur + 1) endDate
      else []
  end.

Definition dateRange (dateStart dateEnd : Z) : list Z :=
  dateRange_loop (Z.to_nat (dateEnd - dateStart + 1)) dateStart dateEnd.

(** Returns ms overlap of interval [a,b] with [c,d]. *)
Definition overlap (a b c d : Z) : Z :=
  Z.max 0 (Z.min b d - Z.max a c).

Definition dayBounds (tz : TimeZone) (d : Z) : Z * Z :=
  let start := midnight tz d in
  (start, start + 24 * 60 * 60 * 1000).

(** The names of the properties that an object created by [{}] inherits
    from [Object.prototype]. *)
Definition inheritedNames : list string :=
  [ "constructor"; "hasOwnProperty"; "isPrototypeOf"; "propertyIsEnumerable";
    "toLocaleString"; "toString"; "valueOf"; "__proto__";
    "__defineGetter__"; "__defineSetter__"; "__lookupGetter__";
    "__lookupSetter__" ].

Definition inherited (id : string) : bool :=
  bool_decide (id ∈ inheritedNames).

(** [a + b] *)
Definition plus (a b : Value) : Value :=
  match a, b with
  | number x, number y => number (x + y)
  | _, _ => text
  end.

(** [obj[id] ?? 0], [m] being the own properties of an object created by
    [{}]: an own property is read as it is; without one, [obj[id]] is
    [undefined] unless [Object.prototype] has the property, and then it is
    a function or an object, which [+] turns into a string: [text] stands
    for it. *)
Definition readOr0 (m : gmap string Value) (id : string) : Value :=
  match m !! id with
  | Some v => v
  | None => if inherited id then text else number 0
  end.

(** [obj[id] = v], where [v] is a number or a string: an own property is
    made or overwritten, except under ["__proto__"], whose setter ignores
    a value that is neither an object nor [null]. *)
Definition assign (m : gmap string Value) (id : string) (v : Value)
  : gmap string Value :=
  if bool_decide (id = "__proto__") then m else <[id := v]> m.

(** [byTask[id] = (byTask[id] ?? 0) + ms; totalMs += ms] in the aggregator,
    where [ms] and [totalMs] are numbers. *)
Definition accrue (id : string) (ms : Z) (acc : gmap string Value * Z)
  : gmap string Value * Z :=
  (assign acc.1 id (plus (readOr0 acc.1 id) (number ms)), acc.2 + ms).

(** Body of the inner loop of [aggregateToDays]. *)
Definition aggInterval (dayStart dayEnd : Z) (taskId : string)
    (acc : gmap string Value * Z) (iv : TimeInterval) : gmap string Value * Z :=
  match iv_end iv with
  | None => acc
  | Some e =>
      let ms := overlap (iv_start iv) e dayStart dayEnd in
      if bool_decide (ms ≤ 0) then acc else accrue taskId ms acc
  end.

Definition aggSession (dayStart dayEnd : Z)
    (acc : gmap string Value * Z) (s : Session) : gmap string Value * Z :=
  foldl (aggInterval dayStart dayEnd (s_taskId s)) acc (s_intervals s).

(** The callback of [dates.map] in [aggregateToDays]: the bucket made for
    the day [d]. *)
Definition aggregateDay (tz : TimeZone) (sessions : list Session) (d : Z)
  : DayData Z :=
  let '(dayStart, dayEnd) := dayBounds tz d in
  let '(byTask, totalMs) := foldl (aggSession dayStart dayEnd) (∅, 0) sessions in
  {| date := d; totalMs := totalMs; byTask := byTask |}.

Definition aggregateToDays (tz : TimeZone) (sessions : list Session)
    (dateStart dateEnd : Z) : list (DayData Z) :=
  aggregateDay tz sessions <$> dateRange dateStart dateEnd.

(** [byTask[displayId] = (byTask[displayId] ?? 0) + ms; totalMs += ms] in
    the merge, where [ms] is what the entry of the day holds. *)
Definition accrueValue (id : string) (ms : Value) (acc : gmap string Value * Value)
  : gmap string Value * Value :=
  (assign acc.1 id (plus (readOr0 acc.1 id) ms), plus acc.2 ms).

(** [mergeDayDataWithDisplay]: the loop over [Object.entries(day.byTask)];
    [!displayId] holds for a missing entry and for the empty string. *)
Definition mergeEntry (effectiveMap : gmap string string)
    (taskId : string) (ms : Value) (acc : gmap string Value * Value)
  : gmap string Value * Value :=
  match effectiveMap !! taskId with
  | None => acc
  | Some displayId =>
      if bool_decide (displayId = "") then acc else accrueValue displayId ms acc
  end.

Definition mergeDay {T} (effectiveMap : gmap string string) (day : DayData T)
  : DayData Value :=
  let '(byTask, totalMs) :=
    map_fold (mergeEntry effectiveMap) (∅, number 0) (byTask day) in
  {| date := date day; totalMs := totalMs; byTask := byTask |}.

Definition mergeDayDataWithDisplay {T} (dayData : list (DayData T))
    (effectiveMap : gmap string string) : list (DayData Value) :=
  mergeDay effectiveMap <$> dayData.

(** The sum of the values of a per-task map. *)
Definition sumValues (m : gmap string Value) : Value :=
  map_fold (λ _ v acc, plus v acc) (number 0) m.

(** The aggregator as the specification words it: an interval that is
    still open is treated as ending at the supplied [now]. *)
Definition closeAtNow (now : Z) (iv : TimeInterval) : TimeInterval :=
  {| iv_start := iv_start iv; iv_end := Some (default now (iv_end iv)) |}.

Definition closeSessionAtNow (now : Z) (s : Session) : Session :=
  {| s_id := s_id s; s_taskId := s_taskId s;
     s_intervals := closeAtNow now <$> s_intervals s; s_note := s_note s |}.

Definition aggregateToDays_spec (tz : TimeZone) (now : Z)
    (sessions : list Session) (dateStart dateEnd : Z) : list (DayData Z) :=
  aggregateToDays tz (closeSessionAtNow now <$> sessions) dateStart dateEnd.

(** What one interval, and one session, put into the window of a day. *)
Definition closedOverlap (dayStart dayEnd : Z) (iv : TimeInterval) : Z :=
  match iv_end iv with
  | None => 0
  | Some e => overlap (iv_start iv) e dayStart dayEnd
  end.

Fixpoint sumZ (l : list Z) : Z :=
  match l with
  | [] => 0
  | x :: l' => x + sumZ l'
  end.

Definition sessionOverlap (dayStart dayEnd : Z) (s : Session) : Z :=
  sumZ (closedOverlap dayStart dayEnd <$> s_intervals s).

(** What the per-task map of a day holds under [t], once the overlaps
    accrued under [t] add up to [ms]: nothing under ["__proto__"], a string
    under another name of [Object.prototype], the number otherwise. *)
Definition entryOf (t : string) (ms : Z) : option Value :=
  if decide (0 < ms) then
    if bool_decide (t = "__proto__") then None
    else if inherited t then Some text
    else Some (number ms)
  else None.

(** A session without its open intervals. *)
Definition closedOnly (s : Session) : Session :=
  {| s_id := s_id s; s_taskId := s_taskId s;
     s_intervals := filter (λ iv, iv_end iv ≠ None) (s_intervals s);
     s_note := s_note s |}.

(** ** analyticsUtils.ts: the hierarchy resolver *)

(** [categories.find((c) => c.id === cur)]: the first node with that id. *)
Definition findCategory (categories : list Category) (cur : string)
  : option Category :=
  List.find (λ c, bool_decide (c_id c = cur)) categories.

(** [cat?.parentId ?? null] *)
Definition parentOf (categories : list Category) (cur : string)
  : option string :=
  findCategory categories cur ≫= c_parentId.

(** The upward walk [while (cur !== null) { ... }] for one task.  Each turn
    of the loop uses one unit of [fuel]; the result is [None] when the loop
    has not left after [fuel] turns, and [Some chosen] when it has. *)
Fixpoint walk (fuel : nat) (categories : list Category)
    (selectedIds : gset string) (cur : option string) : option (option string) :=
  match fuel with
  | O => None
  | S fuel' =>
      match cur with
      | None => Some None
      | Some c =>
          if bool_decide (c ∈ selectedIds) then Some (Some c)
          else walk fuel' categories selectedIds (parentOf categories c)
      end
  end.

(** [if (chosen) map.set(task.id, chosen)]: [null] and the empty string
    are falsy. *)
Definition setChosen (m : gmap string string) (taskId : string)
    (chosen : option string) : gmap string string :=
  match chosen with
  | None => m
  | Some c => if bool_decide (c = "") then m else <[taskId := c]> m
  end.

Definition tasksOf (categories : list Category) : list Category :=
  filter (λ c, c_type c = task) categories.

Definition resolveTask (fuel : nat) (categories : list Category)
    (selectedIds : gset string) (acc : option (gmap string string))
    (t : Category) : option (gmap string string) :=
  m ← acc;
  chosen ← walk fuel categories selectedIds (Some (c_id t));
  Some (setChosen m (c_id t) chosen).

(** [computeEffectiveDisplay]; [None] when a walk does not leave its loop
    within [fuel] turns. *)
Definition computeEffectiveDisplay (fuel : nat) (categories : list Category)
    (selectedIds : gset string) : option (gmap string string) :=
  foldl (resolveTask fuel categories selectedIds) (Some ∅) (tasksOf categories).

(** The call [computeEffectiveDisplay(categories, selectedIds)] returns:
    some number of turns is enough for each of its walks. *)
Definition returns (categories : list Category) (selectedIds : gset string)
  : Prop :=
  ∃ fuel, is_Some (computeEffectiveDisplay fuel categories selectedIds).

(** The ancestor chain, as the specification describes the resolution:
    [firstSelected cur d] when [d] is the first selected node met going up
    from [cur], [cur] itself included. *)
Inductive firstSelected (categories : list Category) (selectedIds : gset string)
  : string → string → Prop :=
  | firstSelected_here cur :
      cur ∈ selectedIds → firstSelected categories selectedIds cur cur
  | firstSelected_up cur p d :
      cur ∉ selectedIds →
      parentOf categories cur = Some p →
      firstSelected categories selectedIds p d →
      firstSelected categories selectedIds cur d.

(** [p] is the parent of [c] in the list. *)
Definition parentStep (categories : list Category) (c p : string) : Prop :=
  parentOf categories c = Some p.

(** No node is its own ancestor. *)
Definition acyclic (categories : list Category) : Prop :=
  ∀ c, ¬ tc (parentStep categories) c c.

(** The ids of a category list. *)
Definition idsOf (categories : list Category) : gset string :=
  list_to_set (c_id <$> categories).

(** ** AppContext.tsx: interrupted-session detection *)

Definition hasOpen (s : Session) : bool :=
  existsb (λ iv, bool_decide (iv_end iv = None)) (s_intervals s).

(** [Math.max(...xs)]; [None] stands for [-Infinity], its value on []. *)
Definition mathMax (xs : list Z) : option Z :=
  foldl (λ acc x, Some (from_option (Z.max x) x acc)) None xs.

Definition maxStart (s : Session) : option Z :=
  mathMax (iv_start <$> s_intervals s).

(** The sign of [bStart - aStart]; [-Infinity - -Infinity] is [NaN], which
    [sort] takes as [0]. *)
Definition compareStart (a b : Session) : Z :=
  match maxStart a, maxStart b with
  | Some aStart, Some bStart => bStart - aStart
  | Some _, None => -1
  | None, Some _ => 1
  | None, None => 0
  end.

(** [Array.prototype.sort] is stable: with a consistent comparator its
    result is that of a stable insertion sort. *)
Fixpoint insertSorted {A} (cmp : A → A → Z) (x : A) (l : list A) : list A :=
  match l with
  | [] => [x]
  | y :: l' =>
      if bool_decide (cmp x y ≤ 0) then x :: y :: l'
      else y :: insertSorted cmp x l'
  end.

Definition sortBy {A} (cmp : A → A → Z) (l : list A) : list A :=
  foldr (insertSorted cmp) [] l.

Definition findInterruptedSession (sessions : list Session) : option Session :=
  let interrupted := filter (λ s, hasOpen s = true) sessions in
  if bool_decide (length interrupted = 0%nat) then None
  else head (sortBy compareStart interrupted).

(** The interval invariant of the data model: the intervals of a session
    are chronological, each one closed before the next one starts. *)
Fixpoint chronological (ivs : list TimeInterval) : Prop :=
  match ivs with
  | [] => True
  | iv :: rest =>
      match rest with
      | [] => True
      | next :: _ =>
          ∃ e, iv_end iv = Some e ∧ iv_start iv ≤ e ∧ e ≤ iv_start next
      end ∧ chronological rest
  end.

(** ** AnalyticsScreen: average per day *)

(** [days.reduce((a, d) => a + d.totalMs, 0)] *)
Definition totalMsOf (days : list (DayData Value)) : Value :=
  foldl (λ a d, plus a (totalMs d)) (number 0) days.

(** [v > 0]: a string that is not the text of a number compares as [NaN],
    so the test fails. *)
Definition positive (v : Value) : bool :=
  match v with
  | number n => bool_decide (0 < n)
  | text => false
  end.

Definition activeDays (excludeZeroDays : bool) (days : list (DayData Value))
  : list (DayData Value) :=
  if excludeZeroDays then filter (λ d, positive (totalMs d) = true) days
  else days.

(** The JavaScript division [a / b] by an integer; the result is not a
    finite number ([NaN] or an infinity, here [None]) when [a] is a string
    that is not the text of a number or [b] is zero.  Otherwise it is
    taken as the exact rational: the rounding of the quotient to a double
    is not modelled. *)
Definition divide (a : Value) (b : Z) : option Q :=
  match a with
  | number n =>
      if bool_decide (b = 0) then None
      else Some (Qdiv (inject_Z n) (inject_Z b))
  | text => None
  end.

(** [activeDays.length > 0 ? totalMs / activeDays.length : 0] *)
Definition avgPerDayMs (excludeZeroDays : bool) (days : list (DayData Value))
  : option Q :=
  let n := length (activeDays excludeZeroDays days) in
  if bool_decide (0 < n)%nat
  then divide (totalMsOf days) (Z.of_nat n)
  else Some (inject_Z 0).

Definition zeroDays (days : list (DayData Value)) : list (DayData Value) :=
  filter (λ d, totalMs d = number 0) days.

(** The number a total holds. *)
Definition totalNumber (d : DayData Value) : Z :=
  match totalMs d with
  | number n => n
  | text => 0
  end.

(** ** helpers.ts: the older day bucketing *)

(** [d.setHours(0, 0, 0, 0)] and [d.setHours(23, 59, 59, 999)] on the
    [Date] of timestamp [t]: the first and the last millisecond of the
    local day of [t].  The last millisecond is taken to be the one before
    the next local midnight, as it is unless a clock change makes
    23:59:59.999 occur twice or not at all on that day. *)
Definition getStartOfDay (tz : TimeZone) (t : Z) : Z :=
  midnight tz (dayOf tz t).

Definition getEndOfDay (tz : TimeZone) (t : Z) : Z :=
  midnight tz (dayOf tz t + 1) - 1.

(** [x || d] on a number that may be [null]: [null] and [0] are falsy. *)
Definition orElse (x : option Z) (d : Z) : Z :=
  match x with
  | None => d
  | Some v => if bool_decide (v = 0) then d else v
  end.

(** The loop [while (currentDay <= endDay && currentDay <= endDate)] for
    one interval.  [currentDay], [endDay] and [startMidnight] are dates at
    local midnight and are held as days; [endDate] is the caller's date, a
    timestamp.  [dayKey] is the day itself.  As in [dateRange], [setDate]
    is taken to lead from one local midnight to the next. *)
Fixpoint timeByDay_loop (fuel : nat) (tz : TimeZone)
    (startMidnight endDate : Z) (intervalStart intervalEnd endDay : Z)
    (currentDay : Z) (timeByDay : gmap Z Z) : gmap Z Z :=
  match fuel with
  | O => timeByDay
  | S fuel' =>
      if bool_decide (currentDay ≤ endDay)
         && bool_decide (midnight tz currentDay ≤ endDate)
      then
        let timeByDay' :=
          if bool_decide (startMidnight ≤ currentDay) then
            let dayStart := getStartOfDay tz (midnight tz currentDay) in
            let dayEnd := getEndOfDay tz (midnight tz currentDay) in
            let overlapStart := Z.max intervalStart dayStart in
            let overlapEnd := Z.min intervalEnd dayEnd in
            if bool_decide (overlapStart < overlapEnd)
            then <[currentDay :=
                     orElse (timeByDay !! currentDay) 0
                     + (overlapEnd - overlapStart)]> timeByDay
            else timeByDay
          else timeByDay in
        timeByDay_loop fuel' tz startMidnight endDate
          intervalStart intervalEnd endDay (currentDay + 1) timeByDay'
      else timeByDay
  end.

Definition timeByDay_interval (tz : TimeZone) (now : Z)
    (startMidnight endDate : Z) (timeByDay : gmap Z Z) (interval : TimeInterval)
  : gmap Z Z :=
  let intervalEnd := orElse (iv_end interval) now in
  let intervalStart := iv_start interval in
  let startDay := dayOf tz intervalStart in
  let endDay := dayOf tz intervalEnd in
  timeByDay_loop (Z.to_nat (endDay - startDay + 1)) tz startMidnight endDate
    intervalStart intervalEnd endDay startDay timeByDay.

(** [calculateTimeByDay(sessions, startDate, endDate)], with the clock
    reading [now]; of a session it reads the intervals only. *)
Definition calculateTimeByDay (tz : TimeZone) (now : Z)
    (sessions : list Session) (startDate endDate : Z) : gmap Z Z :=
  let startMidnight := dayOf tz startDate in
  foldl (λ timeByDay session,
           foldl (timeByDay_interval tz now startMidnight endDate)
                 timeByDay (s_intervals session))
        ∅ sessions.

(** Later days start later. *)
Definition increasingDays (tz : TimeZone) : Prop :=
  ∀ d, midnight tz d < midnight tz (d + 1).

(** What [calculateTimeByDay] counts of the interval from [s] to [e] on
    day [d]: the overlap with the day, the day ending with its last
    millisecond. *)
Definition clippedOverlap (tz : TimeZone) (d : Z) (s e : Z) : Z :=
  Z.max 0 (Z.min e (midnight tz (d + 1) - 1) - Z.max s (midnight tz d)).

Definition sessionClipped (tz : TimeZone) (now : Z) (d : Z) (s : Session) : Z :=
  sumZ ((λ iv, clippedOverlap tz d (iv_start iv) (orElse (iv_end iv) now))
          <$> s_intervals s).

(** One millisecond for an interval that holds the last millisecond
    of day [d]. *)
Definition lastMs (tz : TimeZone) (d : Z) (iv : TimeInterval) : Z :=
  match iv_end iv with
  | Some e => if decide (iv_start iv < midnight tz (d + 1) ≤ e) then 1 else 0
  | None => 0
  end.

Definition sessionLastMs (tz : TimeZone) (d : Z) (s : Session) : Z :=
  sumZ (lastMs tz d <$> s_intervals s).

(** ** AppContext.tsx: application state and timer commands *)

Inductive TimerStatus := idle | running | paused.

Record ActiveTimer := mkTimer {
  t_sessionId : string;
  t_taskId : string;
  t_status : TimerStatus;
  t_intervals : list TimeInterval;
  t_elapsedMs : Z;
  t_intervalStart : option Z
}.

(** The part of [AppState] the timer commands read and write. *)
Record AppState := mkAppState {
  st_sessions : list Session;
  st_timer : option ActiveTimer;
  st_interruptedSession : option Session
}.

Definition initialState : AppState :=
  {| st_sessions := []; st_timer := None; st_interruptedSession := None |}.

Inductive Action :=
  | UPSERT_SESSION (session : Session)
  | DELETE_SESSION (id : string)
  | SET_TIMER (timer : option ActiveTimer)
  | CLEAR_INTERRUPTED.

Global Instance TimerStatus_eq_dec : EqDecision TimerStatus.
Proof. solve_decision. Defined.
Global Instance ActiveTimer_eq_dec : EqDecision ActiveTimer.
Proof. solve_decision. Defined.
Global Instance AppState_eq_dec : EqDecision AppState.
Proof. solve_decision. Defined.

Definition reducer (state : AppState) (action : Action) : AppState :=
  match action with
  | UPSERT_SESSION session =>
      let same := λ s, bool_decide (s_id s = s_id session) in
      let sessions :=
        if existsb same (st_sessions state)
        then (λ s, if same s then session else s) <$> st_sessions state
        else st_sessions state ++ [session] in
      {| st_sessions := sessions; st_timer := st_timer state;
         st_interruptedSession := st_interruptedSession state |}
  | DELETE_SESSION id =>
      {| st_sessions := filter (λ s, s_id s ≠ id) (st_sessions state);
         st_timer := st_timer state;
         st_interruptedSession := st_interruptedSession state |}
  | SET_TIMER timer =>
      {| st_sessions := st_sessions state; st_timer := timer;
         st_interruptedSession := st_interruptedSession state |}
  | CLEAR_INTERRUPTED =>
      {| st_sessions := st_sessions state; st_timer := st_timer state;
         st_interruptedSession := None |}
  end.

(** The application together with its storage: the [sessions] object store
    of IndexedDB, keyed by [id], and whether its requests succeed. *)
Record World := mkWorld {
  w_app : AppState;
  w_db : gmap string Session;
  w_dbOk : bool
}.

(** What the caller of an [async] command observes: the promise is
    fulfilled (with a value) or rejected. *)
Inductive Result (A : Type) :=
  | fulfilled (a : A)
  | rejected.
Arguments fulfilled {A} a.
Arguments rejected {A}.

Definition Cmd (A : Type) : Type := World → Result A * World.

Global Instance Cmd_ret : MRet Cmd := λ A a w, (fulfilled a, w).
Global Instance Cmd_bind : MBind Cmd := λ A B k c w,
  match c w with
  | (fulfilled a, w') => k a w'
  | (rejected, w') => (rejected, w')
  end.

(** [stateRef.current] *)
Definition getState : Cmd AppState := λ w, (fulfilled (w_app w), w).

Definition dispatch (action : Action) : Cmd () := λ w,
  (fulfilled (), {| w_app := reducer (w_app w) action; w_db := w_db w; w_dbOk := w_dbOk w |}).

(** [await db.upsertSession(session)]: [store.put(session)] *)
Definition db_upsertSession (session : Session) : Cmd () := λ w,
  if w_dbOk w
  then (fulfilled (),
        {| w_app := w_app w; w_db := <[s_id session := session]> (w_db w); w_dbOk := w_dbOk w |})
  else (rejected, w).

(** [await db.deleteSession(id)]: [store.delete(id)] *)
Definition db_deleteSession (id : string) : Cmd () := λ w,
  if w_dbOk w
  then (fulfilled (), {| w_app := w_app w; w_db := delete id (w_db w); w_dbOk := w_dbOk w |})
  else (rejected, w).

(** [!x] on a number that may be [null]. *)
Definition falsy (x : option Z) : bool :=
  match x with
  | None => true
  | Some v => bool_decide (v = 0)
  end.

(** [intervals.map((iv, i) => i === intervals.length - 1 && p(iv) ? {...iv, end: now} : iv)] *)
Definition closeLast (p : TimeInterval → bool) (now : Z)
    (intervals : list TimeInterval) : list TimeInterval :=
  imap (λ i iv,
          if bool_decide (Z.of_nat i = Z.of_nat (length intervals) - 1) && p iv
          then {| iv_start := iv_start iv; iv_end := Some now |}
          else iv) intervals.

(** [startTimer(taskId)]; [now] is [Date.now()], [sessionId] is [genId()]. *)
Definition startTimer (now : Z) (sessionId taskId : string) : Cmd () :=
  let interval := {| iv_start := now; iv_end := None |} in
  let newTimer :=
    {| t_sessionId := sessionId; t_taskId := taskId; t_status := running;
       t_intervals := [interval]; t_elapsedMs := 0;
       t_intervalStart := Some now |} in
  let session :=
    {| s_id := sessionId; s_taskId := taskId; s_intervals := [interval];
       s_note := None |} in
  db_upsertSession session;;
  dispatch (UPSERT_SESSION session);;
  dispatch (SET_TIMER (Some newTimer)).

Definition pauseTimer (now : Z) : Cmd () :=
  state ← getState;
  match st_timer state with
  | None => mret ()
  | Some timer =>
      if bool_decide (t_status timer ≠ running) || falsy (t_intervalStart timer)
      then mret ()
      else
        let elapsed := t_elapsedMs timer + (now - default 0 (t_intervalStart timer)) in
        let closedIntervals := closeLast (λ _, true) now (t_intervals timer) in
        let updated :=
          {| t_sessionId := t_sessionId timer; t_taskId := t_taskId timer;
             t_status := paused; t_intervals := closedIntervals;
             t_elapsedMs := elapsed; t_intervalStart := None |} in
        let session :=
          {| s_id := t_sessionId timer; s_taskId := t_taskId timer;
             s_intervals := closedIntervals; s_note := None |} in
        db_upsertSession session;;
        dispatch (UPSERT_SESSION session);;
        dispatch (SET_TIMER (Some updated))
  end.

Definition resumeTimer (now : Z) : Cmd () :=
  state ← getState;
  match st_timer state with
  | None => mret ()
  | Some timer =>
      if bool_decide (t_status timer ≠ paused) then mret ()
      else
        let newInterval := {| iv_start := now; iv_end := None |} in
        let updated :=
          {| t_sessionId := t_sessionId timer; t_taskId := t_taskId timer;
             t_status := running;
             t_intervals := t_intervals timer ++ [newInterval];
             t_elapsedMs := t_elapsedMs timer; t_intervalStart := Some now |} in
        let session :=
          {| s_id := t_sessionId timer; s_taskId := t_taskId timer;
             s_intervals := t_intervals updated; s_note := None |} in
        db_upsertSession session;;
        dispatch (UPSERT_SESSION session);;
        dispatch (SET_TIMER (Some updated))
  end.

Definition stopTimer (now : Z) (save : bool) : Cmd () :=
  state ← getState;
  match st_timer state with
  | None => mret ()
  | Some timer =>
      (if save then
         let closedIntervals :=
           closeLast (λ iv, bool_decide (iv_end iv = None)) now (t_intervals timer) in
         let session :=
           {| s_id := t_sessionId timer; s_taskId := t_taskId timer;
              s_intervals := closedIntervals; s_note := None |} in
         db_upsertSession session;;
         dispatch (UPSERT_SESSION session)
       else
         db_deleteSession (t_sessionId timer);;
         dispatch (DELETE_SESSION (t_sessionId timer)));;
      dispatch (SET_TIMER None)
  end.

(** [sessionTotalMs] of the timing screen, with the clock reading [now]. *)
Definition sessionTotalMs (now : Z) (s : Session) : Z :=
  foldl (λ acc iv, acc + (default now (iv_end iv) - iv_start iv)) 0 (s_intervals s).

(** The state of the timer as the state machine of the specification
    names it. *)
Definition statusOf (w : World) : TimerStatus :=
  match st_timer (w_app w) with
  | None => idle
  | Some timer => t_status timer
  end.

(** The three commands of the state machine that need a timer. *)
Inductive TimerCommand :=
  | Pause
  | Resume
  | Stop (save : bool).

Definition run (c : TimerCommand) (now : Z) : Cmd () :=
  match c with
  | Pause => pauseTimer now
  | Resume => resumeTimer now
  | Stop save => stopTimer now save
  end.

(** The states from which the specification permits a command: pause from
    running, resume from paused, stop from running or paused, that is,
    whenever there is a timer. *)
Definition permits (c : TimerCommand) (w : World) : Prop :=
  match c with
  | Pause => statusOf w = running
  | Resume => statusOf w = paused
  | Stop _ => st_timer (w_app w) ≠ None
  end.

Definition freshWorld : World :=
  {| w_app := initialState; w_db := ∅; w_dbOk := true |}.

(** The scenario: start at [t0], pause one minute later, resume after one
    more minute, stop and save after a third. *)
Definition scenario (t0 : Z) (sessionId taskId : string) : Cmd () :=
  startTimer t0 sessionId taskId;;
  pauseTimer (t0 + 60000);;
  resumeTimer (t0 + 120000);;
  stopTimer (t0 + 180000) true.

(** The session the scenario is expected to leave in storage. *)
Definition twoIntervals (t0 : Z) (sessionId taskId : string) : Session :=
  {| s_id := sessionId; s_taskId := taskId;
     s_intervals :=
       [ {| iv_start := t0; iv_end := Some (t0 + 60000) |};
         {| iv_start := t0 + 120000; iv_end := Some (t0 + 180000) |} ];
     s_note := None |}.

(** A small tree: the folder "work" with the task "email" in it. *)
Definition workTree : list Category :=
  [ {| c_id := "work"; c_type := folder; c_name := "Work"; c_color := "#e05c3a";
       c_parentId := None; c_order := 0 |};
    {| c_id := "email"; c_type := task; c_name := "Email"; c_color := "#e05c3a";
       c_parentId := Some "work"; c_order := 0 |} ].

(** Malformed data: the folders "f" and "g" are each other's parent. *)
Definition cyclicList : list Category :=
  [ {| c_id := "f"; c_type := folder; c_name := "F"; c_color := "#e05c3a";
       c_parentId := Some "g"; c_order := 0 |};
    {| c_id := "g"; c_type := folder; c_name := "G"; c_color := "#e05c3a";
       c_parentId := Some "f"; c_order := 1 |};
    {| c_id := "t"; c_type := task; c_name := "T"; c_color := "#e05c3a";
       c_parentId := Some "f"; c_order := 0 |} ].

(** Sessions left behind by two crashes, and a finished one. *)
Definition crashedSessions : list Session :=
  [ {| s_id := "a"; s_taskId := "email";
       s_intervals := [ {| iv_start := 0; iv_end := Some 50000 |};
                        {| iv_start := 60000; iv_end := None |} ];
       s_note := None |};
    {| s_id := "b"; s_taskId := "review";
       s_intervals := [ {| iv_start := 70000; iv_end := None |} ];
       s_note := None |};
    {| s_id := "c"; s_taskId := "email";
       s_intervals := [ {| iv_start := 80000; iv_end := Some 90000 |} ];
       s_note := None |} ].

(** One session with one interval, from 23:00 of day 0 to 01:00 of day 1
    in UTC. *)
Definition lateSession : list Session :=
  [ {| s_id := "s"; s_taskId := "t";
       s_intervals := [ {| iv_start := 82800000; iv_end := Some 90000000 |} ];
       s_note := None |} ].

(** ** analyticsUtils.ts: what a display id collects *)

(** The entries of a per-task map that the display mapping sends to [x]. *)
Definition sentTo (effectiveMap : gmap string string) (x : string)
    (m : gmap string Value) : gmap string Value :=
  filter (λ kv, effectiveMap !! kv.1 = Some x) m.

(** ** AnalyticsScreen: average per task *)






(** ** helpers.ts: the entries of the older bucketing, the session length *)

(** What every entry of the map satisfies: its day is in the window of the
    call and its value is positive. *)
Definition inWindow (tz : TimeZone) (startMidnight endDate : Z)
    (timeByDay : gmap Z Z) : Prop :=
  ∀ d v, timeByDay !! d = Some v →
         startMidnight ≤ d ∧ midnight tz d ≤ endDate ∧ 0 < v.

(** [calculateSessionDuration(session)] of helpers.ts, with the clock
    reading [now]; of the session it reads the intervals only. *)
Definition calculateSessionDuration (now : Z) (s : Session) : Z :=
  foldl (λ total interval,
           let end_ := orElse (iv_end interval) now in
           total + (end_ - iv_start interval)) 0 (s_intervals s).

(** ** AppContext.tsx: the other commands *)

(** [intervals.map((iv) => iv.end === null ? { ...iv, end: now } : iv)] *)
Definition closeOpen (now : Z) (intervals : list TimeInterval)
  : list TimeInterval :=
  (λ iv, if bool_decide (iv_end iv = None)
         then {| iv_start := iv_start iv; iv_end := Some now |} else iv)
    <$> intervals.

Definition resumeInterrupted (now : Z) (session : Session) : Cmd () :=
  let closedIntervals := closeOpen now (s_intervals session) in
  let newInterval := {| iv_start := now; iv_end := None |} in
  let newIntervals := closedIntervals ++ [newInterval] in
  let elapsedMs :=
    foldl (λ acc iv, acc + (default now (iv_end iv) - iv_start iv)) 0
          closedIntervals in
  let updatedSession :=
    {| s_id := s_id session; s_taskId := s_taskId session;
       s_intervals := newIntervals; s_note := s_note session |} in
  db_upsertSession updatedSession;;
  dispatch (UPSERT_SESSION updatedSession);;
  let newTimer :=
    {| t_sessionId := s_id session; t_taskId := s_taskId session;
       t_status := running; t_intervals := newIntervals;
       t_elapsedMs := elapsedMs; t_intervalStart := Some now |} in
  dispatch (SET_TIMER (Some newTimer));;
  dispatch CLEAR_INTERRUPTED.

Definition closeInterrupted (now : Z) (session : Session) : Cmd () :=
  let closedIntervals := closeOpen now (s_intervals session) in
  let updatedSession :=
    {| s_id := s_id session; s_taskId := s_taskId session;
       s_intervals := closedIntervals; s_note := s_note session |} in
  db_upsertSession updatedSession;;
  dispatch (UPSERT_SESSION updatedSession);;
  dispatch CLEAR_INTERRUPTED.

Definition dismissInterrupted : Cmd () := dispatch CLEAR_INTERRUPTED.

Definition upsertSession (session : Session) : Cmd () :=
  db_upsertSession session;;
  dispatch (UPSERT_SESSION session).

Definition deleteSession (id : string) : Cmd () :=
  db_deleteSession id;;
  dispatch (DELETE_SESSION id).

(** [getElapsedMs()], with the clock reading [now]. *)
Definition getElapsedMs (now : Z) (state : AppState) : Z :=
  match st_timer state with
  | None => 0
  | Some timer =>
      if bool_decide (t_status timer = running)
         && negb (falsy (t_intervalStart timer))
      then t_elapsedMs timer + (now - default 0 (t_intervalStart timer))
      else t_elapsedMs timer
  end.

(** One call of the user interface: a start, one of the three commands on
    the timer, the resumption of an interrupted session, each with the
    reading of the clock, or the dismissal of the prompt. *)
Inductive Call :=
  | CallStart (now : Z) (sessionId taskId : string)
  | CallRun (now : Z) (c : TimerCommand)
  | CallResumeInterrupted (now : Z) (session : Session)
  | CallDismissInterrupted.

Definition call (k : Call) : Cmd () :=
  match k with
  | CallStart now sessionId taskId => startTimer now sessionId taskId
  | CallRun now c => run c now
  | CallResumeInterrupted now session => resumeInterrupted now session
  | CallDismissInterrupted => dismissInterrupted
  end.

(** The world after a sequence of calls, each awaited before the next. *)
Definition after (calls : list Call) (w : World) : World :=
  foldl (λ w k, (call k w).2) w calls.

(** The sessions in memory and the sessions in storage are the same, one
    per id. *)
Definition synced (state : AppState) (store : gmap string Session) : Prop :=
  NoDup (s_id <$> st_sessions state)
  ∧ ∀ id s, store !! id = Some s ↔ s ∈ st_sessions state ∧ s_id s = id.

Definition inSync (w : World) : Prop := synced (w_app w) (w_db w).

(** The length of closed intervals. *)
Definition closedMs (intervals : list TimeInterval) : Z :=
  sumZ ((λ iv, default 0 (iv_end iv) - iv_start iv) <$> intervals).

(** The timer as the commands keep it: while running its last interval,
    and no other, is open and started at [intervalStart]; while paused no
    interval is open; [elapsedMs] is the length of the closed intervals. *)
Definition timerShape (timer : ActiveTimer) : Prop :=
  match t_status timer with
  | running =>
      ∃ closed start,
        t_intervals timer = closed ++ [ {| iv_start := start; iv_end := None |} ]
        ∧ t_intervalStart timer = Some start
        ∧ Forall (λ iv, iv_end iv ≠ None) closed
        ∧ t_elapsedMs timer = closedMs closed
  | paused =>
      Forall (λ iv, iv_end iv ≠ None) (t_intervals timer)
      ∧ t_intervalStart timer = None
      ∧ t_elapsedMs timer = closedMs (t_intervals timer)
  | idle => False
  end.

(** The timer, if there is one, has this shape, and the session it times
    is stored with the same task and the same intervals. *)
Definition timerMirrorsSession (w : World) : Prop :=
  match st_timer (w_app w) with
  | None => True
  | Some timer =>
      timerShape timer
      ∧ ∃ s, w_db w !! t_sessionId timer = Some s
             ∧ s_taskId s = t_taskId timer
             ∧ s_intervals s = t_intervals timer
  end.

(** A call that writes sessions: one of the calls above, the closing of an
    interrupted session, or the plain upsert or deletion of a session. *)
Inductive StoreCall :=
  | CallTimer (k : Call)
  | CallCloseInterrupted (now : Z) (session : Session)
  | CallUpsertSession (session : Session)
  | CallDeleteSession (id : string).

Definition storeCall (k : StoreCall) : Cmd () :=
  match k with
  | CallTimer k => call k
  | CallCloseInterrupted now session => closeInterrupted now session
  | CallUpsertSession session => upsertSession session
  | CallDeleteSession id => deleteSession id
  end.

Definition afterStore (calls : list StoreCall) (w : World) : World :=
  foldl (λ w k, (storeCall k w).2) w calls.

(** [db.getAllSessions()] resolves with the sessions of the store. *)
Definition holdsStore (w : World) (sessions : list Session) : Prop :=
  ∀ s, s ∈ sessions ↔ ∃ id, w_db w !! id = Some s.

(** ** analyticsUtils.ts and helpers.ts: the duration formatters *)

(** [`${n}`] on an integer. *)
Definition show (n : Z) : string := pretty n.

(** [fmtDuration(ms, compact)] of analyticsUtils.ts, on a whole number of
    milliseconds; [%] is the remainder with the sign of the dividend.  A
    [number] is a double: on whole numbers of absolute value below 2^53
    the divisions, [Math.floor] and [%] give what the integer operations
    give, and beyond that bound the model does not follow the code. *)
Definition fmtDuration (ms : Z) (compact : bool) : string :=
  let totalSec := ms `div` 1000 in
  let h := totalSec `div` 3600 in
  let m := (totalSec `rem` 3600) `div` 60 in
  let s := totalSec `rem` 60 in
  if compact then
    if bool_decide (0 < h)
    then show h +:+ "h" +:+ (if bool_decide (0 < m) then " " +:+ show m +:+ "m" else "")
    else if bool_decide (0 < m) then show m +:+ "m"
    else show s +:+ "s"
  else
    if bool_decide (0 < h) then show h +:+ "h " +:+ show m +:+ "m"
    else if bool_decide (0 < m) then show m +:+ "m " +:+ show s +:+ "s"
    else show s +:+ "s".

(** [formatDuration(ms)] of helpers.ts, with the same reading of a
    [number]. *)
Definition formatDuration (ms : Z) : string :=
  let seconds := ms `div` 1000 in
  let minutes := seconds `div` 60 in
  let hours := minutes `div` 60 in
  if bool_decide (0 < hours) then
    let mins := minutes `rem` 60 in
    show hours +:+ "h " +:+ show mins +:+ "m"
  else if bool_decide (0 < minutes) then
    let secs := seconds `rem` 60 in
    show minutes +:+ "m " +:+ show secs +:+ "s"
  else show seconds +:+ "s".

(** ** helpers.ts: the path of an item *)

(** The items of helpers.ts: a category or a task. *)
Inductive ItemKind := kind_category | kind_task.

Record Item := mkItem {
  i_id : string;
  i_name : string;
  i_color : string;
  i_parentId : option string;
  i_type : ItemKind
}.

(** [items.find(i => i.id === currentId)] *)
Definition findItem (items : list Item) (currentId : string) : option Item :=
  List.find (λ i, bool_decide (i_id i = currentId)) items.

(** The loop [while (currentId) { ... }] of [getItemPath]; the empty string
    is falsy.  Each turn uses one unit of [fuel]; the result is [None]
    when the loop has not left after [fuel] turns. *)
Fixpoint getItemPath_loop (fuel : nat) (items : list Item)
    (currentId : option string) (path : list string) : option (list string) :=
  match fuel with
  | O => None
  | S fuel' =>
      match currentId with
      | None => Some path
      | Some c =>
          if bool_decide (c = "") then Some path
          else
            match findItem items c with
            | None => Some path
            | Some item =>
                getItemPath_loop fuel' items (i_parentId item)
                  (i_name item :: path)
            end
      end
  end.

Definition getItemPath (fuel : nat) (items : list Item) (itemId : string)
  : option (list string) :=
  getItemPath_loop fuel items (Some itemId) [].

(** [path.join('/')] *)
Definition join (sep : string) (path : list string) : string :=
  match path with
  | [] => ""
  | x :: rest => foldl (λ acc y, acc +:+ sep +:+ y) x rest
  end.

(** [path.length > 1 ? path.slice(0, -1).join('/') : ''] *)
Definition getItemPathString (fuel : nat) (items : list Item) (itemId : string)
  : option string :=
  path ← getItemPath fuel items itemId;
  Some (if bool_decide (1 < length path)%nat
        then join "/" (take (length path - 1) path) else "").

(** ** helpers.ts: the tasks under a category *)

(** [items.filter(item => item.parentId === parentId)] *)
Definition getItemChildren (items : list Item) (parentId : string) : list Item :=
  filter (λ item, i_parentId item = Some parentId) items.

Global Instance ItemKind_eq_dec : EqDecision ItemKind.
Proof. solve_decision. Defined.

(** The loop [while (queue.length > 0) { ... }] of
    [getAllDescendantTaskIds]: the head of the queue is taken off, the
    ids of its children that are tasks go to [taskIds], those of the
    others to the end of the queue.  Each turn uses one unit of [fuel]. *)
Fixpoint descend (fuel : nat) (items : list Item) (queue : list string)
    (taskIds : list string) : option (list string) :=
  match fuel with
  | O => None
  | S fuel' =>
      match queue with
      | [] => Some taskIds
      | currentId :: rest =>
          let children := getItemChildren items currentId in
          descend fuel' items
            (rest ++ (i_id <$> filter (λ child, i_type child ≠ kind_task) children))
            (taskIds ++ (i_id <$> filter (λ child, i_type child = kind_task) children))
      end
  end.

Definition getAllDescendantTaskIds (fuel : nat) (items : list Item)
    (categoryId : string) : option (list string) :=
  descend fuel items [categoryId] [].

(** [below items c q]: [q] is [c] or the id of an item that is not a task
    and whose parent is below [c]. *)
Inductive below (items : list Item) (c : string) : string → Prop :=
  | below_refl : below items c c
  | below_child q item :
      below items c q → item ∈ items → i_parentId item = Some q →
      i_type item ≠ kind_task → below items c (i_id item).

(** The tasks under [c]: the ids of the tasks whose parent is below [c]. *)
Definition taskUnder (items : list Item) (c : string) (id : string) : Prop :=
  ∃ q t, below items c q ∧ t ∈ items ∧ i_parentId t = Some q
         ∧ i_type t = kind_task ∧ i_id t = id.

(** A rank that falls from a parent to each child that is not a task:
    there is none when the parent links of the categories form a cycle. *)
Definition ranked (items : list Item) (rank : string → nat) : Prop :=
  ∀ item q, item ∈ items → i_type item ≠ kind_task →
            i_parentId item = Some q → (rank (i_id item) < rank q)%nat.

(** The turns that a node of rank [n] can take, with its descendants. *)
Fixpoint turns (b : nat) (n : nat) : nat :=
  match n with
  | O => 1
  | S n' => 1 + b * turns b n'
  end.

(** The turns the nodes of a queue can take. *)
Definition cost (b : nat) (rank : string → nat) (queue : list string) : nat :=
  sum_list ((λ q, turns b (rank q)) <$> queue).

(** What the loop keeps: the queue holds ids below [c] only, [taskIds]
    tasks under [c] only, and from every id that has left the queue
    (those of [done]) nothing is missing: its children that are not tasks
    are in the queue or have left it, those that are tasks are in
    [taskIds]. *)
Definition closedUnder (items : list Item) (c : string)
    (done_ queue taskIds : list string) : Prop :=
  (c ∈ done_ ++ queue)
  ∧ (∀ q, q ∈ done_ ++ queue → below items c q)
  ∧ (∀ id, id ∈ taskIds → taskUnder items c id)
  ∧ (∀ q item, q ∈ done_ → item ∈ items → i_parentId item = Some q →
               if decide (i_type item = kind_task) then i_id item ∈ taskIds
               else i_id item ∈ done_ ++ queue).

(** The category "work" with the task "email" and the category "sub" in
    it, and the task "calls" in "sub". *)
Definition itemTree : list Item :=
  [ {| i_id := "work"; i_name := "Work"; i_color := "#E63946";
       i_parentId := None; i_type := kind_category |};
    {| i_id := "email"; i_name := "Email"; i_color := "#E63946";
       i_parentId := Some "work"; i_type := kind_task |};
    {| i_id := "sub"; i_name := "Sub"; i_color := "#E63946";
       i_parentId := Some "work"; i_type := kind_category |};
    {| i_id := "calls"; i_name := "Calls"; i_color := "#E63946";
       i_parentId := Some "sub"; i_type := kind_task |} ].

Definition itemTreeRank (id : string) : nat :=
  if bool_decide (id = "work") then 2
  else if bool_decide (id = "sub") then 1 else 0.

(** ** Properties of the aggregator *)

Lemma dateRange_loop_seqZ fuel cur endDate :
  fuel = Z.to_nat (endDate - cur + 1) →
  dateRange_loop fuel cur endDate = seqZ cur (endDate - cur + 1).
Proof.
  revert cur. induction fuel as [|n IH]; intros cur Hf; simpl.
  - rewrite seqZ_nil; [done | lia].
  - rewrite bool_decide_eq_true_2 by lia.
    rewrite (seqZ_cons cur) by lia. f_equal.
    rewrite IH by lia. f_equal; lia.
Qed.

Lemma dateRange_seqZ dateStart dateEnd :
  dateRange dateStart dateEnd = seqZ dateStart (dateEnd - dateStart + 1).
Proof. by apply dateRange_loop_seqZ. Qed.

Lemma elem_of_dateRange d dateStart dateEnd :
  d ∈ dateRange dateStart dateEnd ↔ dateStart ≤ d ≤ dateEnd.
Proof. rewrite dateRange_seqZ, elem_of_seqZ. lia. Qed.

Lemma overlap_nonneg a b c d : 0 ≤ overlap a b c d.
Proof. unfold overlap. lia. Qed.

(** Symmetric, and zero when the two intervals are disjoint. *)
Lemma overlap_sym a b c d : overlap a b c d = overlap c d a b.
Proof. unfold overlap. lia. Qed.

Lemma overlap_disjoint a b c d : b ≤ c ∨ d ≤ a → overlap a b c d = 0.
Proof. unfold overlap. lia. Qed.

Section sumValues.
Implicit Types (m : gmap string Value) (k : string) (v : Value).

Lemma plus_comm v1 v2 : plus v1 v2 = plus v2 v1.
Proof. destruct v1, v2; simpl; try done. f_equal. lia. Qed.

Lemma plus_assoc v1 v2 v3 : plus v1 (plus v2 v3) = plus (plus v1 v2) v3.
Proof. destruct v1, v2, v3; simpl; try done. f_equal. lia. Qed.

Lemma plus_0_l v : plus (number 0) v = v.
Proof. by destruct v. Qed.

Lemma sumValues_empty : sumValues ∅ = number 0.
Proof. unfold sumValues. by rewrite map_fold_empty. Qed.

Lemma sumValues_insert_fresh m k v :
  m !! k = None → sumValues (<[k := v]> m) = plus v (sumValues m).
Proof.
  intros Hk. unfold sumValues.
  rewrite map_fold_insert_L; [done | | done].
  intros. rewrite !plus_assoc. f_equal. apply plus_comm.
Qed.

Lemma inherited_proto k : inherited k = false → k ≠ "__proto__".
Proof. intros Hk ->. done. Qed.

(** Under a name that [Object.prototype] does not have, the object is a
    map: the new value is added to the sum of the values. *)
Lemma sumValues_assign m k v :
  inherited k = false →
  sumValues (assign m k (plus (readOr0 m k) v)) = plus (sumValues m) v.
Proof.
  intros Hk. unfold assign, readOr0.
  rewrite bool_decide_eq_false_2 by by apply inherited_proto.
  destruct (m !! k) as [old|] eqn:Hold.
  - rewrite <- (insert_delete_id m k old) at 2 by done.
    rewrite <- (insert_delete_eq m k (plus old v)).
    rewrite !sumValues_insert_fresh by apply lookup_delete_eq.
    rewrite <- !plus_assoc. f_equal. apply plus_comm.
  - rewrite Hk, plus_0_l. rewrite sumValues_insert_fresh by done.
    apply plus_comm.
Qed.

Lemma sumValues_accrue k ms (acc : gmap string Value * Z) :
  inherited k = false →
  number acc.2 = sumValues acc.1 →
  number (accrue k ms acc).2 = sumValues (accrue k ms acc).1.
Proof.
  intros Hk Hacc. unfold accrue; simpl.
  by rewrite sumValues_assign, <- Hacc.
Qed.

End sumValues.

Lemma sumValues_aggInterval dayStart dayEnd taskId acc iv :
  inherited taskId = false →
  number acc.2 = sumValues acc.1 →
  number (aggInterval dayStart dayEnd taskId acc iv).2
  = sumValues (aggInterval dayStart dayEnd taskId acc iv).1.
Proof.
  intros Hid Hacc. unfold aggInterval.
  destruct (iv_end iv) as [e|]; [|done].
  case_bool_decide; [done|]. by apply sumValues_accrue.
Qed.

Lemma sumValues_aggSession dayStart dayEnd acc s :
  inherited (s_taskId s) = false →
  number acc.2 = sumValues acc.1 →
  number (aggSession dayStart dayEnd acc s).2
  = sumValues (aggSession dayStart dayEnd acc s).1.
Proof.
  intros Hid. unfold aggSession. revert acc.
  induction (s_intervals s) as [|iv ivs IH]; intros acc Hacc; simpl; [done|].
  apply IH. by apply sumValues_aggInterval.
Qed.

(** Where no task id is the name of a property of [Object.prototype], the
    total of a day of the aggregator is the sum of its per-task entries. *)
Lemma sumValues_aggregateDay tz sessions d :
  Forall (λ s, inherited (s_taskId s) = false) sessions →
  number (totalMs (aggregateDay tz sessions d))
  = sumValues (byTask (aggregateDay tz sessions d)).
Proof.
  intros Hids. unfold aggregateDay, dayBounds.
  generalize (midnight tz d) (midnight tz d + 24 * 60 * 60 * 1000); intros lo hi.
  assert (∀ acc, number acc.2 = sumValues acc.1 →
                 number (foldl (aggSession lo hi) acc sessions).2
                 = sumValues (foldl (aggSession lo hi) acc sessions).1) as Hfold.
  { induction Hids as [|s ss Hs _ IH]; intros acc Hacc; simpl; [done|].
    apply IH. by apply sumValues_aggSession. }
  specialize (Hfold (∅, 0)).
  destruct (foldl (aggSession lo hi) (∅, 0) sessions) as [m t]; simpl in *.
  apply Hfold. by rewrite sumValues_empty.
Qed.


(** C9 at a task id that names a property of [Object.prototype].  The
    per-task map is a plain object: under ["__proto__"] the assignment
    stores nothing, under ["constructor"] the inherited function is read
    and a string is stored.  The total counts the four seconds in both
    cases; the per-task map holds no value in the first and a string in
    the second, so the total is not the sum of its values. *)
Theorem dayData_totalMs_is_not_sum_of_byTask :
  let sessionOf taskId :=
    [ {| s_id := "s"; s_taskId := taskId;
         s_intervals := [ {| iv_start := 1000; iv_end := Some 5000 |} ];
         s_note := None |} ] in
  aggregateToDays utc (sessionOf "__proto__") 0 0
  = [ {| date := 0; totalMs := 4000; byTask := ∅ |} ]
  ∧ aggregateToDays utc (sessionOf "constructor") 0 0
    = [ {| date := 0; totalMs := 4000; byTask := {[ "constructor" := text ]} |} ]
  ∧ (λ day, (number (totalMs day), sumValues (byTask day)))
      <$> aggregateToDays utc (sessionOf "__proto__") 0 0
    = [ (number 4000, number 0) ]
  ∧ (λ day, (number (totalMs day), sumValues (byTask day)))
      <$> aggregateToDays utc (sessionOf "constructor") 0 0
    = [ (number 4000, text) ].
Proof. repeat split; by vm_compute. Qed.

(** *** What a day bucket holds *)

Lemma sumZ_cons x l : sumZ (x :: l) = x + sumZ l.
Proof. done. Qed.

Lemma sumZ_app l1 l2 : sumZ (l1 ++ l2) = sumZ l1 + sumZ l2.
Proof. induction l1 as [|x l1 IH]; csimpl; lia. Qed.

Lemma closedOverlap_nonneg dayStart dayEnd iv : 0 ≤ closedOverlap dayStart dayEnd iv.
Proof. unfold closedOverlap. destruct (iv_end iv); [apply overlap_nonneg | done]. Qed.

Lemma aggInterval_total dayStart dayEnd taskId acc iv :
  (aggInterval dayStart dayEnd taskId acc iv).2
  = acc.2 + closedOverlap dayStart dayEnd iv.
Proof.
  unfold aggInterval, closedOverlap. destruct (iv_end iv) as [e|]; [|lia].
  pose proof (overlap_nonneg (iv_start iv) e dayStart dayEnd).
  case_bool_decide; simpl; lia.
Qed.

Lemma sessionOverlap_nonneg dayStart dayEnd s :
  0 ≤ sessionOverlap dayStart dayEnd s.
Proof.
  unfold sessionOverlap. induction (s_intervals s) as [|iv ivs IH]; csimpl; [done|].
  pose proof (closedOverlap_nonneg dayStart dayEnd iv). lia.
Qed.

Lemma accrue_lookup_ne id ms acc t :
  id ≠ t → (accrue id ms acc).1 !! t = acc.1 !! t.
Proof.
  intros Hne. unfold accrue, assign; simpl.
  case_bool_decide; [done|]. by rewrite lookup_insert_ne.
Qed.

Lemma accrue_lookup_eq t ms acc sum :
  0 ≤ sum → 0 < ms → acc.1 !! t = entryOf t sum →
  (accrue t ms acc).1 !! t = entryOf t (sum + ms).
Proof.
  intros Hsum Hms Hacc. unfold accrue, assign, readOr0, entryOf in *; simpl.
  rewrite (decide_True (P := 0 < sum + ms)) by lia.
  destruct (bool_decide (t = "__proto__")) eqn:Hproto.
  - rewrite Hacc. by case_decide.
  - rewrite lookup_insert_eq, Hacc.
    destruct (decide (0 < sum)) as [Hpos|Hzero];
      destruct (inherited t); simpl; try done.
    do 2 f_equal. lia.
Qed.

Lemma aggInterval_lookup dayStart dayEnd taskId acc iv t sum :
  0 ≤ sum → acc.1 !! t = entryOf t sum →
  (aggInterval dayStart dayEnd taskId acc iv).1 !! t
  = entryOf t (sum + (if decide (taskId = t)
                      then closedOverlap dayStart dayEnd iv else 0)).
Proof.
  intros Hsum Hacc. unfold aggInterval, closedOverlap.
  destruct (iv_end iv) as [e|].
  - pose proof (overlap_nonneg (iv_start iv) e dayStart dayEnd).
    case_bool_decide.
    + rewrite Hacc. f_equal. case_decide; lia.
    + destruct (decide (taskId = t)) as [->|Hne].
      * apply accrue_lookup_eq; [done | lia | done].
      * rewrite accrue_lookup_ne by done. rewrite Hacc. f_equal. lia.
  - rewrite Hacc. f_equal. case_decide; lia.
Qed.

Lemma aggSession_total dayStart dayEnd acc s :
  (aggSession dayStart dayEnd acc s).2 = acc.2 + sessionOverlap dayStart dayEnd s.
Proof.
  unfold aggSession, sessionOverlap. revert acc.
  induction (s_intervals s) as [|iv ivs IH]; intros acc; csimpl; [lia|].
  rewrite IH, aggInterval_total. lia.
Qed.

Lemma aggSession_lookup dayStart dayEnd acc s t sum :
  0 ≤ sum → acc.1 !! t = entryOf t sum →
  (aggSession dayStart dayEnd acc s).1 !! t
  = entryOf t (sum + (if decide (s_taskId s = t)
                      then sessionOverlap dayStart dayEnd s else 0)).
Proof.
  unfold aggSession, sessionOverlap. revert acc sum.
  induction (s_intervals s) as [|iv ivs IH]; intros acc sum Hsum Hacc; csimpl.
  - rewrite Hacc. f_equal. case_decide; lia.
  - pose proof (closedOverlap_nonneg dayStart dayEnd iv).
    rewrite (IH _ (sum + (if decide (s_taskId s = t)
                          then closedOverlap dayStart dayEnd iv else 0))).
    + f_equal. case_decide; lia.
    + case_decide; lia.
    + by apply aggInterval_lookup.
Qed.

Lemma aggSessions_total dayStart dayEnd acc sessions :
  (foldl (aggSession dayStart dayEnd) acc sessions).2
  = acc.2 + sumZ (sessionOverlap dayStart dayEnd <$> sessions).
Proof.
  revert acc. induction sessions as [|s ss IH]; intros acc; csimpl; [lia|].
  rewrite IH, aggSession_total. lia.
Qed.

Lemma aggSessions_lookup dayStart dayEnd acc sessions t sum :
  0 ≤ sum → acc.1 !! t = entryOf t sum →
  (foldl (aggSession dayStart dayEnd) acc sessions).1 !! t
  = entryOf t (sum + sumZ (sessionOverlap dayStart dayEnd
                             <$> filter (λ s, s_taskId s = t) sessions)).
Proof.
  revert acc sum.
  induction sessions as [|s ss IH]; intros acc sum Hsum Hacc; csimpl.
  - rewrite Hacc. f_equal. lia.
  - pose proof (sessionOverlap_nonneg dayStart dayEnd s).
    rewrite (IH _ (sum + (if decide (s_taskId s = t)
                          then sessionOverlap dayStart dayEnd s else 0))).
    + f_equal. rewrite filter_cons. case_decide; csimpl; lia.
    + case_decide; lia.
    + by apply aggSession_lookup.
Qed.

Lemma aggregateDay_total tz sessions d :
  totalMs (aggregateDay tz sessions d)
  = sumZ (sessionOverlap (midnight tz d) (midnight tz d + MS_PER_DAY) <$> sessions).
Proof.
  unfold aggregateDay, dayBounds.
  pose proof (aggSessions_total (midnight tz d)
                (midnight tz d + 24 * 60 * 60 * 1000) (∅, 0) sessions) as H.
  destruct (foldl _ _ _) as [m t]; simpl in *. rewrite H. done.
Qed.

Lemma aggregateDay_byTask tz sessions d t :
  byTask (aggregateDay tz sessions d) !! t
  = entryOf t (sumZ (sessionOverlap (midnight tz d) (midnight tz d + MS_PER_DAY)
                       <$> filter (λ s, s_taskId s = t) sessions)).
Proof.
  unfold aggregateDay, dayBounds.
  pose proof (aggSessions_lookup (midnight tz d)
                (midnight tz d + 24 * 60 * 60 * 1000) (∅, 0) sessions t 0) as H.
  destruct (foldl _ _ _) as [m tot]; simpl in *. rewrite H; done.
Qed.

Lemma aggSession_closedOnly dayStart dayEnd acc s :
  aggSession dayStart dayEnd acc (closedOnly s) = aggSession dayStart dayEnd acc s.
Proof.
  unfold aggSession, closedOnly; simpl. revert acc.
  induction (s_intervals s) as [|iv ivs IH]; intros acc; [done|].
  rewrite filter_cons. case_decide as Hiv; simpl.
  - apply IH.
  - rewrite IH. f_equal. unfold aggInterval. by rewrite Hiv.
Qed.

Lemma aggregateDay_closedOnly tz sessions d :
  aggregateDay tz (closedOnly <$> sessions) d = aggregateDay tz sessions d.
Proof.
  unfold aggregateDay, dayBounds.
  generalize (midnight tz d) (midnight tz d + 24 * 60 * 60 * 1000); intros lo hi.
  assert (∀ acc, foldl (aggSession lo hi) acc (closedOnly <$> sessions)
                 = foldl (aggSession lo hi) acc sessions) as ->; [|done].
  induction sessions as [|s ss IH]; intros acc; simpl; [done|].
  by rewrite aggSession_closedOnly, IH.
Qed.

Lemma date_aggregateDay tz sessions d : date (aggregateDay tz sessions d) = d.
Proof.
  unfold aggregateDay, dayBounds.
  by destruct (foldl (aggSession _ _) (∅, 0) sessions).
Qed.

(** C1, as the code has it.  The bucket the day aggregator makes for a
    day holds, in its total and for each task, the overlap of every
    interval with a non-null end with the 24-hour window that starts at the
    local midnight of the day (for each task: under a task id that is not
    the name of a property of [Object.prototype]); an interval whose end is
    null is skipped: the bucket is the same as for the sessions without
    their open intervals, so the time of a running session is in no
    bucket.  In a zone whose days have 24 hours the aggregator returns the
    buckets of the days of the range, one for each day, in order. *)
Theorem aggregateToDays_counts_closed_intervals_only tz sessions dateStart dateEnd :
  (∀ d, let day := aggregateDay tz sessions d in
        let lo := midnight tz d in
        date day = d
        ∧ totalMs day = sumZ (sessionOverlap lo (lo + MS_PER_DAY) <$> sessions)
        ∧ (∀ t, inherited t = false →
                byTask day !! t
                = let ms := sumZ (sessionOverlap lo (lo + MS_PER_DAY)
                                    <$> filter (λ s, s_taskId s = t) sessions) in
                  if decide (0 < ms) then Some (number ms) else None)
        ∧ aggregateDay tz (closedOnly <$> sessions) d = day)
  ∧ (uniformDays tz →
     aggregateToDays tz sessions dateStart dateEnd
     = aggregateDay tz sessions <$> seqZ dateStart (dateEnd - dateStart + 1)
     ∧ aggregateToDays tz (closedOnly <$> sessions) dateStart dateEnd
       = aggregateToDays tz sessions dateStart dateEnd).
Proof.
  split.
  - intros d. cbv zeta. split; [apply date_aggregateDay|].
    split; [apply aggregateDay_total|]. split; [|apply aggregateDay_closedOnly].
    intros t Ht. rewrite aggregateDay_byTask. unfold entryOf.
    case_decide; [|done].
    rewrite bool_decide_eq_false_2 by (intros ->; done). by rewrite Ht.
  - intros _. unfold aggregateToDays. rewrite dateRange_seqZ. split; [done|].
    apply list_fmap_ext. intros _ d _. apply aggregateDay_closedOnly.
Qed.

(** C1, as the specification states it, fails: a session that started at
    00:00:01 and is still running at 00:00:05 has put nothing into the
    bucket of its day, where the specification counts four seconds. *)
Lemma open_interval_is_not_counted :
  let running := [ {| s_id := "s"; s_taskId := "t";
                      s_intervals := [ {| iv_start := 1000; iv_end := None |} ];
                      s_note := None |} ] in
  totalMs <$> aggregateToDays utc running 0 0 = [0]
  ∧ totalMs <$> aggregateToDays_spec utc 5000 running 0 0 = [4000]
  ∧ aggregateToDays utc running 0 0 ≠ aggregateToDays_spec utc 5000 running 0 0.
Proof.
  split; [by vm_compute|]. split; [by vm_compute|].
  intros H. apply (f_equal (fmap totalMs)) in H. vm_compute in H. discriminate.
Qed.

(** *** An interval across midnight *)

Lemma uniformDays_shift tz d k :
  uniformDays tz → midnight tz (d + k) = midnight tz d + k * MS_PER_DAY.
Proof.
  intros Huni. induction k as [|k IH|k IH] using Z.peano_ind.
  - by rewrite Z.add_0_r, Z.mul_0_l, Z.add_0_r.
  - replace (d + Z.succ k) with (d + k + 1) by lia. rewrite Huni, IH. lia.
  - specialize (Huni (d + Z.pred k)).
    replace (d + Z.pred k + 1) with (d + k) in Huni by lia. lia.
Qed.

Lemma fixedOffset_uniformDays offset : uniformDays (fixedOffset offset).
Proof. intros d. simpl. lia. Qed.

Lemma fixedOffset_coherent offset : coherent (fixedOffset offset).
Proof.
  intros t. simpl. unfold MS_PER_DAY.
  pose proof (Z.div_mod (t + offset) (24 * 60 * 60 * 1000) ltac:(lia)).
  pose proof (Z.mod_pos_bound (t + offset) (24 * 60 * 60 * 1000) ltac:(lia)).
  lia.
Qed.

Lemma fallBackZone_coherent fallBack : coherent (fallBackZone fallBack).
Proof.
  intros t. simpl. unfold MS_PER_DAY, MS_PER_HOUR.
  pose proof (Z.div_mod (t - 4 * (60 * 60 * 1000)) (24 * 60 * 60 * 1000) ltac:(lia)).
  pose proof (Z.mod_pos_bound (t - 4 * (60 * 60 * 1000)) (24 * 60 * 60 * 1000) ltac:(lia)).
  pose proof (Z.div_mod (t - 5 * (60 * 60 * 1000)) (24 * 60 * 60 * 1000) ltac:(lia)).
  pose proof (Z.mod_pos_bound (t - 5 * (60 * 60 * 1000)) (24 * 60 * 60 * 1000) ltac:(lia)).
  repeat case_bool_decide; lia.
Qed.

(** The day after the change is one hour further from the day of the
    change than [dayBounds] takes it to be. *)
Lemma fallBackZone_long_day fallBack :
  midnight (fallBackZone fallBack) (fallBack + 1)
  = midnight (fallBackZone fallBack) fallBack + MS_PER_DAY + MS_PER_HOUR.
Proof. simpl. repeat case_bool_decide; lia. Qed.

(** Where every local day has 24 hours, a closed interval that starts on
    day [d] and ends on day [d + 1] puts into the bucket of [d] the time up
    to midnight, into the bucket of [d + 1] the time after it, and nothing
    into any other bucket. *)
Lemma interval_across_midnight_24h tz sess d s e d' :
  uniformDays tz →
  s_intervals sess = [ {| iv_start := s; iv_end := Some e |} ] →
  midnight tz d ≤ s < midnight tz (d + 1) →
  midnight tz (d + 1) < e ≤ midnight tz (d + 2) →
  totalMs (aggregateDay tz [sess] d')
  = if decide (d' = d) then midnight tz (d + 1) - s
    else if decide (d' = d + 1) then e - midnight tz (d + 1)
    else 0.
Proof.
  intros Huni Hivs Hs He.
  rewrite aggregateDay_total. csimpl. unfold sessionOverlap. rewrite Hivs.
  csimpl. unfold closedOverlap, overlap; simpl.
  pose proof (uniformDays_shift tz d 1 Huni) as H1.
  pose proof (uniformDays_shift tz d 2 Huni) as H2.
  pose proof (uniformDays_shift tz d (d' - d) Huni) as H'.
  replace (d + (d' - d)) with d' in H' by lia.
  unfold MS_PER_DAY in *.
  repeat case_decide; subst; lia.
Qed.

(** Both buckets hold a positive amount, the two amounts add up to the
    length of the interval, and every other bucket is empty. *)
Lemma interval_across_midnight_24h_sum tz sess d s e :
  uniformDays tz →
  s_intervals sess = [ {| iv_start := s; iv_end := Some e |} ] →
  midnight tz d ≤ s < midnight tz (d + 1) →
  midnight tz (d + 1) < e ≤ midnight tz (d + 2) →
  0 < totalMs (aggregateDay tz [sess] d)
  ∧ 0 < totalMs (aggregateDay tz [sess] (d + 1))
  ∧ totalMs (aggregateDay tz [sess] d) + totalMs (aggregateDay tz [sess] (d + 1))
    = e - s
  ∧ ∀ d', d' ≠ d → d' ≠ d + 1 → totalMs (aggregateDay tz [sess] d') = 0.
Proof.
  intros Huni Hivs Hs He.
  pose proof (λ d', interval_across_midnight_24h tz sess d s e d' Huni Hivs Hs He) as H.
  rewrite (H d), (H (d + 1)).
  rewrite decide_True by done.
  rewrite (decide_False (P := d + 1 = d)) by lia.
  rewrite decide_True by done.
  repeat split; try lia.
  intros d' H1 H2. rewrite H. by rewrite !decide_False by done.
Qed.

(** The example of the specification, 23:00 to 01:00, in UTC. *)
Lemma interval_across_midnight_utc :
  totalMs (aggregateDay utc lateSession 0) = 3600000
  ∧ totalMs (aggregateDay utc lateSession 1) = 3600000
  ∧ ∀ d, d ≠ 0 → d ≠ 1 → totalMs (aggregateDay utc lateSession d) = 0.
Proof.
  destruct (interval_across_midnight_24h_sum utc
              {| s_id := "s"; s_taskId := "t";
                 s_intervals := [ {| iv_start := 82800000; iv_end := Some 90000000 |} ];
                 s_note := None |} 0 82800000 90000000)
    as (_ & _ & _ & Hrest);
    [apply fixedOffset_uniformDays | done | by vm_compute | by vm_compute |].
  split; [by vm_compute|]. split; [by vm_compute|]. exact Hrest.
Qed.

(** C5 at a change of daylight-saving time. In New York the day 2024-11-03
    (day 20030) has 25 hours. An interval from 23:30 of that day to 00:30
    of the next spans the two local days and lasts one hour; the
    aggregator puts nothing into the bucket of the first day and half an
    hour into the bucket of the second. *)
Theorem interval_across_midnight_at_dst_change :
  let s := midnight newYork2024 20031 - 1800000 in
  let e := midnight newYork2024 20031 + 1800000 in
  let sess := {| s_id := "s"; s_taskId := "t";
                 s_intervals := [ {| iv_start := s; iv_end := Some e |} ];
                 s_note := None |} in
  dayOf newYork2024 s = 20030
  ∧ dayOf newYork2024 e = 20031
  ∧ e - s = 3600000
  ∧ totalMs <$> aggregateToDays newYork2024 [sess] 20029 20032
    = [0; 0; 1800000; 0].
Proof. by vm_compute. Qed.

(** ** Properties of the hierarchy resolver *)

Section resolver.
Context (categories : list Category) (selectedIds : gset string).

Lemma parentOf_Some_idsOf c p : parentOf categories c = Some p → c ∈ idsOf categories.
Proof.
  unfold parentOf, findCategory. intros H.
  destruct (List.find _ _) as [cat|] eqn:Hfind; [|done].
  apply find_some in Hfind as [Hin Hid].
  apply bool_decide_eq_true in Hid. subst c.
  unfold idsOf. apply elem_of_list_to_set, list_elem_of_fmap.
  exists cat. split; [done|]. by apply list_elem_of_In.
Qed.

Lemma walk_S fuel c :
  walk (S fuel) categories selectedIds (Some c)
  = if bool_decide (c ∈ selectedIds) then Some (Some c)
    else walk fuel categories selectedIds (parentOf categories c).
Proof. done. Qed.

(** More fuel does not change a walk that has ended. *)
Lemma walk_fuel_mono fuel fuel' cur r :
  walk fuel categories selectedIds cur = Some r → (fuel ≤ fuel')%nat →
  walk fuel' categories selectedIds cur = Some r.
Proof.
  revert fuel' cur. induction fuel as [|n IH]; intros fuel' cur Hw Hle; [done|].
  destruct fuel' as [|m]; [lia|]. simpl in *.
  destruct cur as [c|]; [|done].
  case_bool_decide; [done|]. apply IH; [done | lia].
Qed.

Lemma firstSelected_det c d d' : firstSelected categories selectedIds c d → firstSelected categories selectedIds c d' → d = d'.
Proof.
  intros H. revert d'. induction H as [c Hc | c p d Hc Hp _ IH]; intros d' H'.
  - by inversion H'; subst.
  - inversion H' as [? Hc' | ? p' ? _ Hp' Hd']; subst; [done|].
    rewrite Hp in Hp'. injection Hp' as <-. by apply IH.
Qed.

Lemma firstSelected_selected c d : firstSelected categories selectedIds c d → d ∈ selectedIds.
Proof. induction 1; done. Qed.

Lemma firstSelected_ancestor c d : firstSelected categories selectedIds c d → rtc (parentStep categories) c d.
Proof.
  induction 1 as [c Hc | c p d Hc Hp _ IH]; [done|].
  by eapply rtc_l.
Qed.

(** A walk that ends with a node has found the firstSelected categories selectedIds selected one. *)
Lemma walk_Some_firstSelected fuel c d :
  walk fuel categories selectedIds (Some c) = Some (Some d) → firstSelected categories selectedIds c d.
Proof.
  revert c. induction fuel as [|n IH]; intros c Hw; [done|].
  rewrite walk_S in Hw. case_bool_decide as Hc.
  - injection Hw as <-. by constructor.
  - destruct (parentOf categories c) as [p|] eqn:Hp.
    + eapply firstSelected_up; eauto.
    + by destruct n.
Qed.

(** A walk that ends with [null] has met no selected node. *)
Lemma walk_None_unselected fuel c a :
  walk fuel categories selectedIds (Some c) = Some None →
  rtc (parentStep categories) c a → a ∉ selectedIds.
Proof.
  revert c. induction fuel as [|n IH]; intros c Hw Hrtc; [done|].
  rewrite walk_S in Hw. case_bool_decide as Hc; [done|].
  destruct Hrtc as [|c p a Hstep Hrtc]; [done|].
  unfold parentStep in Hstep. rewrite Hstep in Hw. by eapply IH.
Qed.

Lemma firstSelected_walk c d :
  firstSelected categories selectedIds c d → ∃ fuel, walk fuel categories selectedIds (Some c) = Some (Some d).
Proof.
  induction 1 as [c Hc | c p d Hc Hp _ [n IH]].
  - exists 1%nat. simpl. by rewrite bool_decide_eq_true_2.
  - exists (S n). rewrite walk_S, bool_decide_eq_false_2, Hp; done.
Qed.

(** The result of a walk that has ended is the firstSelected categories selectedIds selected node, or
    [null] when there is none. *)
Lemma walk_result fuel c r :
  walk fuel categories selectedIds (Some c) = Some r →
  ∀ d, r = Some d ↔ firstSelected categories selectedIds c d.
Proof.
  intros Hw d. split.
  - intros ->. by eapply walk_Some_firstSelected.
  - intros Hfirst. destruct r as [d'|].
    + f_equal. eapply firstSelected_det; [|done].
      by eapply walk_Some_firstSelected.
    + exfalso. eapply walk_None_unselected; [done| |].
      * by apply firstSelected_ancestor.
      * by eapply firstSelected_selected.
Qed.

(** Without a cycle every walk ends: the nodes it has left behind are
    distinct nodes of the list. *)
Lemma walk_ends_visited k (visited : gset string) c :
  acyclic categories →
  visited ⊆ idsOf categories →
  (size (idsOf categories) - size visited ≤ k)%nat →
  (∀ v, v ∈ visited → tc (parentStep categories) v c) →
  ∃ r, walk (S (S k)) categories selectedIds (Some c) = Some r.
Proof.
  intros Hacyc. revert visited c.
  induction k as [|k IH]; intros visited c Hsub Hsize Hreach;
    rewrite walk_S; case_bool_decide as Hsel; eauto;
    destruct (parentOf categories c) as [p|] eqn:Hp; eauto.
  - exfalso.
    assert (c ∉ visited) as Hc by (intros Hc; by apply (Hacyc c), Hreach).
    pose proof (parentOf_Some_idsOf _ _ Hp) as Hin.
    assert (size (visited ∪ {[c]}) ≤ size (idsOf categories))%nat as Hle
      by (apply subseteq_size; set_solver).
    rewrite size_union, size_singleton in Hle by set_solver. lia.
  - assert (c ∉ visited) as Hc by (intros Hc; by apply (Hacyc c), Hreach).
    pose proof (parentOf_Some_idsOf _ _ Hp) as Hin.
    apply (IH (visited ∪ {[c]})).
    + set_solver.
    + rewrite size_union, size_singleton by set_solver. lia.
    + intros v [Hv| ->%elem_of_singleton]%elem_of_union.
      * eapply tc_r; [by apply Hreach | done].
      * by apply tc_once.
Qed.

Lemma walk_ends c :
  acyclic categories →
  ∃ r, walk (S (S (size (idsOf categories)))) categories selectedIds (Some c)
       = Some r.
Proof.
  intros Hacyc. apply (walk_ends_visited _ ∅); [done | set_solver | lia | set_solver].
Qed.

End resolver.

Section effectiveDisplay.
Context (fuel : nat) (categories : list Category) (selectedIds : gset string).

Lemma foldl_resolveTask_None ts :
  foldl (resolveTask fuel categories selectedIds) None ts = None.
Proof. induction ts as [|t ts IH]; [done|]. simpl. apply IH. Qed.

Lemma setChosen_lookup m0 (seen : list string) t chosen :
  walk fuel categories selectedIds (Some (c_id t)) = Some chosen →
  (∀ id d, m0 !! id = Some d
           ↔ id ∈ seen ∧ firstSelected categories selectedIds id d ∧ d ≠ "") →
  ∀ id d, setChosen m0 (c_id t) chosen !! id = Some d
          ↔ id ∈ seen ++ [c_id t]
            ∧ firstSelected categories selectedIds id d ∧ d ≠ "".
Proof.
  intros Hw Hinv id d.
  pose proof (walk_result _ _ _ _ _ Hw) as Hres.
  rewrite elem_of_app, list_elem_of_singleton.
  unfold setChosen. destruct chosen as [c|].
  - case_bool_decide as Hempty.
    + rewrite Hinv. split; [naive_solver|].
      intros [[Hseen| ->] [Hfirst Hd]]; [done|].
      apply Hres in Hfirst. congruence.
    + destruct (decide (id = c_id t)) as [->|Hne].
      * rewrite lookup_insert_eq. split.
        -- intros [= <-]. split; [by right|]. split; [by apply Hres | done].
        -- intros (_ & Hfirst & _). apply Hres in Hfirst. congruence.
      * rewrite lookup_insert_ne by done. rewrite Hinv. naive_solver.
  - rewrite Hinv. split; [naive_solver|].
    intros [[Hseen| ->] [Hfirst Hd]]; [done|].
    apply Hres in Hfirst. congruence.
Qed.

Lemma foldl_resolveTask_lookup ts (seen : list string) m0 m :
  (∀ id d, m0 !! id = Some d
           ↔ id ∈ seen ∧ firstSelected categories selectedIds id d ∧ d ≠ "") →
  foldl (resolveTask fuel categories selectedIds) (Some m0) ts = Some m →
  ∀ id d, m !! id = Some d
          ↔ id ∈ seen ++ (c_id <$> ts)
            ∧ firstSelected categories selectedIds id d ∧ d ≠ "".
Proof.
  revert seen m0. induction ts as [|t ts IH]; intros seen m0 Hinv Hfold.
  - injection Hfold as <-. csimpl. by rewrite app_nil_r.
  - simpl in Hfold.
    destruct (walk fuel categories selectedIds (Some (c_id t))) as [chosen|] eqn:Hw;
      simpl in Hfold; [|by rewrite foldl_resolveTask_None in Hfold].
    intros id d. csimpl. rewrite cons_middle, app_assoc.
    apply (IH _ (setChosen m0 (c_id t) chosen)); [|done].
    by apply setChosen_lookup.
Qed.

(** What the resolver returns, when it returns: a task is mapped to the
    first selected node on the way up from it, unless that node has the
    empty id; nothing else is in the map. *)
Lemma computeEffectiveDisplay_lookup m id d :
  computeEffectiveDisplay fuel categories selectedIds = Some m →
  m !! id = Some d
  ↔ id ∈ c_id <$> tasksOf categories
    ∧ firstSelected categories selectedIds id d ∧ d ≠ "".
Proof.
  intros Hm. apply (foldl_resolveTask_lookup _ [] ∅ m); [|done].
  intros id' d'. rewrite lookup_empty. split; [done|]. by intros [?%elem_of_nil _].
Qed.

Lemma computeEffectiveDisplay_ends :
  (∀ t, t ∈ tasksOf categories →
        is_Some (walk fuel categories selectedIds (Some (c_id t)))) →
  is_Some (computeEffectiveDisplay fuel categories selectedIds).
Proof.
  unfold computeEffectiveDisplay. generalize (∅ : gmap string string).
  induction (tasksOf categories) as [|t ts IH]; intros m0 Hall; [by eexists|].
  simpl. destruct (Hall t) as [chosen Hw]; [by left|].
  rewrite Hw. simpl. apply IH. intros t' Ht'. apply Hall. by right.
Qed.

End effectiveDisplay.

(** Where the empty string is not selected.  On a category tree, and with
    selected ids other than the empty string, the resolver returns, and in
    the map it returns a task has the first selected node met when checking
    the task itself, then its parent, its grandparent and so on, and
    nothing else has an entry: a task that is itself selected maps to
    itself, also when its parent is selected, and a task none of whose
    ancestors-or-self is selected is absent. *)
Theorem computeEffectiveDisplay_closest_selected categories selectedIds :
  acyclic categories → "" ∉ selectedIds →
  returns categories selectedIds
  ∧ ∀ fuel m,
      computeEffectiveDisplay fuel categories selectedIds = Some m →
      (∀ id d, m !! id = Some d
               ↔ id ∈ c_id <$> tasksOf categories
                 ∧ firstSelected categories selectedIds id d)
      ∧ (∀ t, t ∈ tasksOf categories → c_id t ∈ selectedIds →
              m !! c_id t = Some (c_id t))
      ∧ (∀ t, t ∈ tasksOf categories →
              (∀ a, rtc (parentStep categories) (c_id t) a → a ∉ selectedIds) →
              m !! c_id t = None).
Proof.
  intros Hacyc Hempty. split.
  { exists (S (S (size (idsOf categories)))).
    apply computeEffectiveDisplay_ends. intros t _.
    destruct (walk_ends categories selectedIds (c_id t) Hacyc) as [r Hr].
    by exists r. }
  intros fuel m Hm.
  pose proof (λ id d, computeEffectiveDisplay_lookup fuel categories selectedIds
                        m id d Hm) as Hlookup.
  assert (∀ id d, m !! id = Some d
                  ↔ id ∈ c_id <$> tasksOf categories
                    ∧ firstSelected categories selectedIds id d) as Hspec.
  { intros id d. rewrite Hlookup. split; [naive_solver|].
    intros [Hid Hfirst]. repeat split; [done..|].
    intros ->. by apply firstSelected_selected in Hfirst. }
  split; [exact Hspec|]. split.
  - intros t Ht Hsel. apply Hspec. split.
    + apply list_elem_of_fmap. by exists t.
    + by constructor.
  - intros t Ht Hnone. destruct (m !! c_id t) as [d|] eqn:Hd; [|done].
    apply Hspec in Hd as [_ Hfirst]. exfalso.
    eapply Hnone; [by eapply firstSelected_ancestor | by eapply firstSelected_selected].
Qed.

(** The empty id is the one the theorem leaves out: a task whose id is the
    empty string and which is itself selected is its own first selected
    node, and the resolver leaves it out of the map, since the empty string
    is falsy in [if (chosen)]. *)
Lemma computeEffectiveDisplay_drops_empty_id :
  let categories := [ {| c_id := ""; c_type := task; c_name := "untitled";
                         c_color := "#e05c3a"; c_parentId := None;
                         c_order := 0 |} ] in
  let selectedIds : gset string := {[ "" ]} in
  acyclic categories
  ∧ firstSelected categories selectedIds "" ""
  ∧ ∀ fuel, computeEffectiveDisplay (S fuel) categories selectedIds = Some ∅.
Proof.
  intros categories selectedIds. split; [|split].
  - intros c Hc. assert (∀ x y, parentStep categories x y → False) as Hno.
    { intros x y. unfold parentStep, parentOf, findCategory; simpl.
      case_bool_decide; simpl; discriminate. }
    destruct Hc; by eapply Hno.
  - constructor. by apply elem_of_singleton.
  - intros fuel. done.
Qed.

(** C4 at a selected node whose id is the empty string.  The folder with
    the empty id is selected and is the parent of the task "t"; the folder
    "g" is selected and is the parent of the task "u".  Going up from "t"
    the first selected node is its parent, and going up from "u" it is "g";
    the resolver maps "u" to "g" and leaves "t" out of the map, as if none
    of its ancestors were selected: [if (chosen)] tests the id found for
    truthiness, and the empty string is falsy. *)
Theorem computeEffectiveDisplay_drops_task_under_empty_id :
  let categories :=
    [ {| c_id := ""; c_type := folder; c_name := "Inbox"; c_color := "#e05c3a";
         c_parentId := None; c_order := 0 |};
      {| c_id := "t"; c_type := task; c_name := "T"; c_color := "#e05c3a";
         c_parentId := Some ""; c_order := 0 |};
      {| c_id := "g"; c_type := folder; c_name := "G"; c_color := "#e05c3a";
         c_parentId := None; c_order := 1 |};
      {| c_id := "u"; c_type := task; c_name := "U"; c_color := "#e05c3a";
         c_parentId := Some "g"; c_order := 0 |} ] in
  let selectedIds : gset string := {[ ""; "g" ]} in
  c_id <$> tasksOf categories = ["t"; "u"]
  ∧ c_parentId <$> tasksOf categories = [Some ""; Some "g"]
  ∧ walk 2 categories selectedIds (Some "t") = Some (Some "")
  ∧ walk 2 categories selectedIds (Some "u") = Some (Some "g")
  ∧ ∀ fuel, computeEffectiveDisplay (2 + fuel) categories selectedIds
            = Some {[ "u" := "g" ]}.
Proof.
  intros categories selectedIds.
  split; [done|]. split; [done|]. split; [done|]. split; [done|].
  intros fuel. done.
Qed.

(** *** Termination of the walk *)

Lemma acyclic_ranked categories (rank : string → nat) :
  (∀ c p, parentStep categories c p → (rank p < rank c)%nat) →
  acyclic categories.
Proof.
  intros Hrank c Hc.
  assert (∀ x y, tc (parentStep categories) x y → (rank y < rank x)%nat) as Hlt.
  { induction 1 as [x y Hxy | x y z Hxy _ IH]; [by apply Hrank|].
    apply Hrank in Hxy. lia. }
  apply Hlt in Hc. lia.
Qed.

Lemma computeEffectiveDisplay_fuel_mono fuel fuel' categories selectedIds m :
  computeEffectiveDisplay fuel categories selectedIds = Some m →
  (fuel ≤ fuel')%nat →
  computeEffectiveDisplay fuel' categories selectedIds = Some m.
Proof.
  unfold computeEffectiveDisplay. generalize (∅ : gmap string string).
  induction (tasksOf categories) as [|t ts IH]; intros m0 Hm Hle; [done|].
  simpl in *.
  destruct (walk fuel categories selectedIds (Some (c_id t))) as [chosen|] eqn:Hw;
    simpl in Hm; [|by rewrite foldl_resolveTask_None in Hm].
  rewrite (walk_fuel_mono _ _ _ _ _ _ Hw Hle). simpl. by apply IH.
Qed.

Lemma workTree_acyclic : acyclic workTree.
Proof.
  apply (acyclic_ranked _ (λ c, if decide (c = "email") then 1%nat else 0%nat)).
  intros c p. unfold parentStep, parentOf, findCategory, workTree; simpl.
  repeat (case_bool_decide; simpl); try discriminate.
  intros [= <-]. subst c. simpl. lia.
Qed.

Lemma computeEffectiveDisplay_closest_selected_witness :
  acyclic workTree
  ∧ "" ∉ ({[ "work"; "email" ]} : gset string)
  ∧ returns workTree {[ "work"; "email" ]}
  ∧ ∃ m, computeEffectiveDisplay 3 workTree {[ "work"; "email" ]} = Some m
         ∧ m !! "email" = Some "email".
Proof.
  assert ("" ∉ ({[ "work"; "email" ]} : gset string)) as Hne by set_solver.
  destruct (computeEffectiveDisplay_closest_selected workTree _
              workTree_acyclic Hne) as [Hret Hspec].
  split; [exact workTree_acyclic|]. split; [exact Hne|]. split; [exact Hret|].
  eexists. split; [reflexivity|].
  destruct (Hspec 3%nat _ eq_refl) as (_ & Hself & _).
  apply (Hself {| c_id := "email"; c_type := task; c_name := "Email";
                  c_color := "#e05c3a"; c_parentId := Some "work";
                  c_order := 0 |}).
  - by apply list_elem_of_singleton.
  - set_solver.
Defined.

(** C6, as the code has it. The walk has no guard against cycles; it ends
    for every category list whose [parentId] links form no cycle, after at
    most two turns more than there are ids, and [computeEffectiveDisplay]
    then returns a map. *)
Theorem computeEffectiveDisplay_ends_without_cycle categories selectedIds :
  acyclic categories →
  returns categories selectedIds
  ∧ ∃ m, ∀ fuel, (S (S (size (idsOf categories))) ≤ fuel)%nat →
                 computeEffectiveDisplay fuel categories selectedIds = Some m.
Proof.
  intros Hacyc.
  cut (∃ m, ∀ fuel, (S (S (size (idsOf categories))) ≤ fuel)%nat →
                    computeEffectiveDisplay fuel categories selectedIds = Some m).
  { intros [m Hm]. split; [|by exists m].
    exists (S (S (size (idsOf categories)))), m. by apply Hm. }
  destruct (computeEffectiveDisplay_ends (S (S (size (idsOf categories))))
              categories selectedIds) as [m Hm].
  { intros t _. destruct (walk_ends categories selectedIds (c_id t) Hacyc) as [r Hr].
    by exists r. }
  exists m. intros fuel Hle. by eapply computeEffectiveDisplay_fuel_mono.
Qed.

Lemma computeEffectiveDisplay_ends_without_cycle_witness :
  acyclic workTree
  ∧ returns workTree {[ "work" ]}
  ∧ ∃ m, ∀ fuel, (S (S (size (idsOf workTree))) ≤ fuel)%nat →
                 computeEffectiveDisplay fuel workTree {[ "work" ]} = Some m.
Proof.
  split; [exact workTree_acyclic|].
  exact (computeEffectiveDisplay_ends_without_cycle workTree {[ "work" ]}
           workTree_acyclic).
Defined.

Lemma cyclicList_never_returns fuel :
  computeEffectiveDisplay fuel cyclicList ∅ = None.
Proof.
  assert (∀ fuel, walk fuel cyclicList ∅ (Some "f") = None
                  ∧ walk fuel cyclicList ∅ (Some "g") = None) as Hloop.
  { clear fuel. induction fuel as [|n [IHf IHg]]; [done|].
    rewrite !walk_S, !bool_decide_eq_false_2 by set_solver.
    change (parentOf cyclicList "f") with (Some "g").
    change (parentOf cyclicList "g") with (Some "f"). done. }
  unfold computeEffectiveDisplay.
  change (tasksOf cyclicList) with
    [ {| c_id := "t"; c_type := task; c_name := "T"; c_color := "#e05c3a";
         c_parentId := Some "f"; c_order := 0 |} ].
  simpl. destruct fuel as [|n]; [done|].
  rewrite walk_S, bool_decide_eq_false_2 by set_solver.
  change (parentOf cyclicList "t") with (Some "f").
  by rewrite (proj1 (Hloop n)).
Qed.

(** C6, as the specification states it, fails: on a list in which two
    folders are each other's parent and none of them is selected, the walk
    from a task below them never leaves its loop, whatever the number of
    turns it is given, and [computeEffectiveDisplay] does not return. *)
Lemma computeEffectiveDisplay_loops_on_cycle : ¬ returns cyclicList ∅.
Proof. intros [fuel [m Hm]]. by rewrite cyclicList_never_returns in Hm. Qed.

(** ** Properties of interrupted-session detection *)

Section sortBy.
Context {A : Type} (cmp : A → A → Z).
Hypothesis cmp_trans : ∀ x y z, cmp x y ≤ 0 → cmp y z ≤ 0 → cmp x z ≤ 0.
Hypothesis cmp_total : ∀ x y, cmp x y ≤ 0 ∨ cmp y x ≤ 0.

Lemma elem_of_insertSorted x y l : y ∈ insertSorted cmp x l ↔ y = x ∨ y ∈ l.
Proof.
  induction l as [|z l IH]; simpl.
  - rewrite list_elem_of_singleton, elem_of_nil. naive_solver.
  - case_bool_decide; rewrite !elem_of_cons; [done|]. rewrite IH. naive_solver.
Qed.

Lemma elem_of_sortBy y l : y ∈ sortBy cmp l ↔ y ∈ l.
Proof.
  induction l as [|x l IH]; [done|]. unfold sortBy in *. simpl.
  rewrite elem_of_insertSorted, elem_of_cons, IH. done.
Qed.

(** The first element of the sorted array comes before every other. *)
Lemma head_sortBy_least l h :
  head (sortBy cmp l) = Some h → h ∈ l ∧ ∀ y, y ∈ l → cmp h y ≤ 0.
Proof.
  revert h. induction l as [|x l IH]; intros h Hh; [done|].
  unfold sortBy in *. simpl in Hh.
  destruct (foldr (insertSorted cmp) [] l) as [|h' sl] eqn:Hsl; simpl in Hh.
  - injection Hh as <-. split; [by left|].
    assert (l = []) as ->.
    { destruct l as [|z l]; [done|]. exfalso.
      assert (z ∈ sortBy cmp (z :: l)) as Hz by (apply elem_of_sortBy; by left).
      unfold sortBy in Hz. rewrite Hsl in Hz. by apply elem_of_nil in Hz. }
    intros y ->%list_elem_of_singleton. by destruct (cmp_total x x).
  - destruct (IH h' eq_refl) as [Hin Hleast].
    case_bool_decide as Hcmp; simpl in Hh; injection Hh as <-.
    + split; [by left|]. intros y [->|Hy]%elem_of_cons.
      * by destruct (cmp_total x x).
      * eapply cmp_trans; [done|]. by apply Hleast.
    + split; [by right|]. intros y [->|Hy]%elem_of_cons.
      * by destruct (cmp_total h' x).
      * by apply Hleast.
Qed.

End sortBy.

Lemma foldl_mathMax acc xs :
  foldl (λ acc x, Some (from_option (Z.max x) x acc)) acc xs
  = match acc, mathMax xs with
    | None, r => r
    | Some a, None => Some a
    | Some a, Some m => Some (Z.max a m)
    end.
Proof.
  revert acc. induction xs as [|y ys IH]; intros acc.
  - by destruct acc.
  - unfold mathMax. simpl. rewrite !IH.
    destruct acc as [a|], (mathMax ys) as [m|]; simpl; f_equal; lia.
Qed.

Lemma mathMax_cons x xs :
  mathMax (x :: xs) = Some (from_option (Z.max x) x (mathMax xs)).
Proof.
  unfold mathMax at 1. simpl. rewrite foldl_mathMax.
  by destruct (mathMax xs).
Qed.

(** The comparator puts first the session whose latest start is greater. *)
Lemma compareStart_Some a b x y :
  maxStart a = Some x → maxStart b = Some y →
  compareStart a b ≤ 0 ↔ y ≤ x.
Proof. intros Ha Hb. unfold compareStart. rewrite Ha, Hb. lia. Qed.

Lemma compareStart_trans a b c :
  compareStart a b ≤ 0 → compareStart b c ≤ 0 → compareStart a c ≤ 0.
Proof.
  unfold compareStart.
  destruct (maxStart a), (maxStart b), (maxStart c); lia.
Qed.

Lemma compareStart_total a b : compareStart a b ≤ 0 ∨ compareStart b a ≤ 0.
Proof. unfold compareStart. destruct (maxStart a), (maxStart b); lia. Qed.

Lemma hasOpen_true s :
  hasOpen s = true ↔ ∃ iv, iv ∈ s_intervals s ∧ iv_end iv = None.
Proof.
  unfold hasOpen. rewrite existsb_exists. split.
  - intros (iv & Hin & Hiv). exists iv. split; [by apply list_elem_of_In|].
    by apply bool_decide_eq_true in Hiv.
  - intros (iv & Hin & Hiv). exists iv. split; [by apply list_elem_of_In|].
    by apply bool_decide_eq_true.
Qed.

(** In a chronological session the open interval is the one that started
    last. *)
Lemma chronological_open_maxStart ivs iv :
  chronological ivs → iv ∈ ivs → iv_end iv = None →
  mathMax (iv_start <$> ivs) = Some (iv_start iv).
Proof.
  induction ivs as [|iv0 rest IH]; intros Hchron Hin Hopen;
    [by apply elem_of_nil in Hin|].
  destruct Hchron as [Hnext Hrest]. csimpl. rewrite mathMax_cons.
  destruct rest as [|next rest'].
  - apply list_elem_of_singleton in Hin as ->. done.
  - destruct Hnext as (e & He & Hse & Hen).
    apply elem_of_cons in Hin as [->|Hin]; [congruence|].
    specialize (IH Hrest Hin Hopen). rewrite IH. simpl.
    csimpl in IH. rewrite mathMax_cons in IH. injection IH as IH.
    destruct (mathMax (iv_start <$> rest')); simpl in IH; f_equal; lia.
Qed.

(** Where the sessions keep the interval invariant of the data model,
    interrupted-session detection returns [null] exactly when no session
    has an open interval, and otherwise returns a session of the list with
    an open interval whose start is the latest among the open intervals of
    all sessions. *)
Theorem findInterruptedSession_latest_open sessions :
  Forall (λ s, chronological (s_intervals s)) sessions →
  (findInterruptedSession sessions = None
   ↔ ∀ s iv, s ∈ sessions → iv ∈ s_intervals s → iv_end iv ≠ None)
  ∧ ∀ s, findInterruptedSession sessions = Some s →
         s ∈ sessions
         ∧ ∃ iv, iv ∈ s_intervals s ∧ iv_end iv = None
                 ∧ ∀ s' iv', s' ∈ sessions → iv' ∈ s_intervals s' →
                             iv_end iv' = None → iv_start iv' ≤ iv_start iv.
Proof.
  intros Hchron. rewrite Forall_forall in Hchron.
  unfold findInterruptedSession.
  set (interrupted := filter (λ s, hasOpen s = true) sessions).
  assert (∀ s, s ∈ interrupted
               ↔ s ∈ sessions ∧ ∃ iv, iv ∈ s_intervals s ∧ iv_end iv = None)
    as Hint.
  { intros s. unfold interrupted. by rewrite list_elem_of_filter, hasOpen_true, (comm and). }
  split.
  - case_bool_decide as Hlen.
    + apply nil_length_inv in Hlen. split; [|done].
      intros _ s iv Hs Hiv Hopen.
      assert (s ∈ interrupted) as Hsi by (apply Hint; eauto).
      rewrite Hlen in Hsi. by apply elem_of_nil in Hsi.
    + split.
      * destruct interrupted as [|s0 rest] eqn:Hi; [done|]. intros Hhead.
        assert (s0 ∈ sortBy compareStart (s0 :: rest)) as Hs0
          by (apply elem_of_sortBy; by left).
        destruct (sortBy compareStart (s0 :: rest)) as [|h sl]; [|done].
        by apply elem_of_nil in Hs0.
      * intros Hclosed. exfalso. apply Hlen.
        destruct interrupted as [|s0 rest] eqn:Hi; [done|].
        assert (s0 ∈ s0 :: rest) as Hs0 by (by left).
        apply Hint in Hs0 as (Hs0 & iv & Hiv & Hopen). by destruct (Hclosed s0 iv).
  - intros s. case_bool_decide as Hlen; [done|]. intros Hhead.
    apply head_sortBy_least in Hhead as [Hs Hleast];
      [|apply compareStart_trans | apply compareStart_total].
    apply Hint in Hs as (Hs & iv & Hiv & Hopen).
    split; [done|]. exists iv. split; [done|]. split; [done|].
    intros s' iv' Hs' Hiv' Hopen'.
    assert (s' ∈ interrupted) as Hs'i by (apply Hint; eauto).
    apply Hleast in Hs'i.
    apply (compareStart_Some s s' (iv_start iv) (iv_start iv')) in Hs'i; [done| |];
      unfold maxStart; apply chronological_open_maxStart; auto.
Qed.

Lemma findInterruptedSession_latest_open_witness :
  Forall (λ s, chronological (s_intervals s)) crashedSessions
  ∧ ∃ s, findInterruptedSession crashedSessions = Some s
         ∧ s_id s = "b"
         ∧ ∃ iv, iv ∈ s_intervals s ∧ iv_end iv = None
                 ∧ ∀ s' iv', s' ∈ crashedSessions → iv' ∈ s_intervals s' →
                             iv_end iv' = None → iv_start iv' ≤ iv_start iv.
Proof.
  assert (Forall (λ s, chronological (s_intervals s)) crashedSessions) as Hwf.
  { repeat constructor; simpl. exists 50000. repeat split; lia. }
  split; [exact Hwf|].
  eexists. split; [reflexivity|]. split; [reflexivity|].
  exact (proj2 (proj2 (findInterruptedSession_latest_open crashedSessions Hwf)
                  _ eq_refl)).
Defined.

(** C7 at a session whose open interval is not its last one.  Both
    sessions have one open interval: that of "a" starts at 10, that of "b"
    at 100, which is the latest.  The detection returns "a", in whichever
    order the two are stored: it ranks a session by the latest start of all
    its intervals, and "a" has a closed interval that starts at 500. *)
Theorem findInterruptedSession_ranks_closed_intervals_too :
  let a := {| s_id := "a"; s_taskId := "email";
              s_intervals := [ {| iv_start := 10; iv_end := None |};
                               {| iv_start := 500; iv_end := Some 600 |} ];
              s_note := None |} in
  let b := {| s_id := "b"; s_taskId := "review";
              s_intervals := [ {| iv_start := 100; iv_end := None |} ];
              s_note := None |} in
  let openStarts s :=
    iv_start <$> filter (λ iv, iv_end iv = None) (s_intervals s) in
  openStarts a = [10] ∧ openStarts b = [100]
  ∧ maxStart a = Some 500 ∧ maxStart b = Some 100
  ∧ findInterruptedSession [a; b] = Some a
  ∧ findInterruptedSession [b; a] = Some a.
Proof. repeat split; by vm_compute. Qed.

(** ** Properties of the average per day *)

Lemma totalMsOf_foldl (a : Value) (days : list (DayData Value)) :
  foldl (λ a d, plus a (totalMs d)) a days = plus a (totalMsOf days).
Proof.
  unfold totalMsOf. revert a.
  induction days as [|d ds IH]; intros a; cbn [foldl].
  - destruct a; simpl; [f_equal; lia | done].
  - rewrite (IH (plus a (totalMs d))), (IH (plus (number 0) (totalMs d))).
    rewrite plus_0_l. symmetry. apply plus_assoc.
Qed.

(** On days whose totals are numbers, the sum the screen takes is the sum
    of the numbers. *)
Lemma totalMsOf_sumZ days :
  Forall (λ d, totalMs d ≠ text) days →
  totalMsOf days = number (sumZ (totalNumber <$> days)).
Proof.
  induction 1 as [|d ds Hd _ IH]; [done|].
  unfold totalMsOf. cbn [foldl]. rewrite totalMsOf_foldl, IH, plus_0_l. csimpl.
  unfold totalNumber. by destruct (totalMs d).
Qed.

Lemma length_active_zero days :
  Forall (λ d, ∃ n, totalMs d = number n ∧ 0 ≤ n) days →
  (length (activeDays true days) + length (zeroDays days) = length days)%nat.
Proof.
  unfold activeDays, zeroDays. induction 1 as [|d ds (n & Hn & Hpos) _ IH]; [done|].
  rewrite !filter_cons. rewrite Hn. simpl.
  destruct (decide (n = 0)) as [->|Hne].
  - rewrite decide_False by done. rewrite decide_True by done. simpl. lia.
  - rewrite decide_True by (by apply bool_decide_eq_true; lia).
    rewrite decide_False by congruence. simpl. lia.
Qed.

(** The average over day data whose totals are numbers, none negative:
    the total divided by the number of active days, and 0 when no day is
    active. *)
Lemma avgPerDayMs_of_nonneg_days excludeZeroDays days :
  Forall (λ d, ∃ n, totalMs d = number n ∧ 0 ≤ n) days →
  let active := activeDays excludeZeroDays days in
  (∃ avg, avgPerDayMs excludeZeroDays days = Some avg
          ∧ (length active = 0%nat → avg = inject_Z 0)
          ∧ (length active ≠ 0%nat →
             avg = Qdiv (inject_Z (sumZ (totalNumber <$> days)))
                        (inject_Z (Z.of_nat (length active)))))
  ∧ (excludeZeroDays = false → active = days)
  ∧ (excludeZeroDays = true →
     (length active + length (zeroDays days) = length days)%nat
     ∧ (length days = 7%nat → length (zeroDays days) = 3%nat →
        length active = 4%nat)).
Proof.
  intros Hnonneg active. split; [|split].
  - unfold avgPerDayMs. fold active. case_bool_decide as Hn.
    + rewrite totalMsOf_sumZ.
      2:{ eapply Forall_impl; [done|]. intros d (n & -> & _). done. }
      unfold divide. rewrite bool_decide_eq_false_2 by lia.
      eexists. split; [done|]. split; [lia|]. done.
    + eexists. split; [done|]. split; [done|]. lia.
  - by intros ->.
  - intros ->. pose proof (length_active_zero days Hnonneg) as Hlen.
    split; [done|]. unfold active. lia.
Qed.

(** A week with three days without recorded time: the sum over the seven
    days is divided by 4. *)
Lemma avgPerDayMs_week :
  let week : list (DayData Value) :=
    (λ '(d, ms), {| date := d; totalMs := number ms;
                    byTask := {[ "email" := number ms ]} |})
      <$> [ (0, 3600000); (1, 0); (2, 1800000); (3, 0); (4, 0);
            (5, 7200000); (6, 600000) ] in
  length week = 7%nat ∧ length (zeroDays week) = 3%nat
  ∧ avgPerDayMs true week = Some (Qdiv (inject_Z 13200000) (inject_Z 4)).
Proof.
  intros week.
  assert (Forall (λ d, ∃ n, totalMs d = number n ∧ 0 ≤ n) week) as Hweek
    by (repeat constructor; simpl; eexists; (split; [done|lia])).
  split; [done|]. split; [done|].
  destruct (avgPerDayMs_of_nonneg_days true week Hweek)
    as [(avg & Havg & _ & Hdiv) _].
  rewrite Havg. f_equal. apply Hdiv. discriminate.
Qed.

(** C8 with a task whose id names a property of [Object.prototype].  The
    task "email" has four seconds on the first day, the task "constructor"
    four seconds on the second; both are shown as themselves.  The merged
    total of the second day is a string: the day is neither active nor a
    day with total 0, the sum over the days is a string, and the average,
    with one active day or with both days counted, is [NaN], where C8 has
    the total divided by the number of active days. *)
Theorem avgPerDayMs_is_NaN_with_prototype_task_id :
  let sessions :=
    [ {| s_id := "a"; s_taskId := "email";
         s_intervals := [ {| iv_start := 1000; iv_end := Some 5000 |} ];
         s_note := None |};
      {| s_id := "b"; s_taskId := "constructor";
         s_intervals := [ {| iv_start := MS_PER_DAY + 1000;
                             iv_end := Some (MS_PER_DAY + 5000) |} ];
         s_note := None |} ] in
  let effectiveMap : gmap string string :=
    {[ "email" := "email"; "constructor" := "constructor" ]} in
  let days :=
    mergeDayDataWithDisplay (aggregateToDays utc sessions 0 1) effectiveMap in
  totalMs <$> aggregateToDays utc sessions 0 1 = [4000; 4000]
  ∧ totalMs <$> days = [number 4000; text]
  ∧ totalMsOf days = text
  ∧ length (activeDays true days) = 1%nat
  ∧ zeroDays days = []
  ∧ avgPerDayMs true days = None
  ∧ avgPerDayMs false days = None.
Proof. repeat split; by vm_compute. Qed.

(** ** Properties of the timer commands *)

Lemma closeLast_app p now l iv :
  closeLast p now (l ++ [iv])
  = l ++ [ if p iv then {| iv_start := iv_start iv; iv_end := Some now |} else iv ].
Proof.
  unfold closeLast. rewrite imap_app. f_equal.
  - rewrite <- (list_fmap_id l) at 2. rewrite <- (imap_const id l).
    apply imap_ext. intros i x Hi. apply lookup_lt_Some in Hi.
    rewrite length_app. simpl.
    rewrite bool_decide_eq_false_2 by lia. done.
  - simpl. rewrite length_app. simpl.
    rewrite bool_decide_eq_true_2 by lia. done.
Qed.

Lemma pauseTimer_ignored now w :
  statusOf w ≠ running → pauseTimer now w = (fulfilled (), w).
Proof.
  unfold statusOf, pauseTimer, mbind, Cmd_bind, getState. intros Hs.
  destruct (st_timer (w_app w)) as [timer|]; [|done].
  rewrite bool_decide_eq_true_2 by done. done.
Qed.

Lemma resumeTimer_ignored now w :
  statusOf w ≠ paused → resumeTimer now w = (fulfilled (), w).
Proof.
  unfold statusOf, resumeTimer, mbind, Cmd_bind, getState. intros Hs.
  destruct (st_timer (w_app w)) as [timer|]; [|done].
  rewrite bool_decide_eq_true_2 by done. done.
Qed.

Lemma stopTimer_ignored now save w :
  st_timer (w_app w) = None → stopTimer now save w = (fulfilled (), w).
Proof. unfold stopTimer, mbind, Cmd_bind, getState. intros ->. done. Qed.

(** C3, as the code has it. A pause, resume or stop issued from a state
    that does not permit it changes neither the timer, nor the sessions in
    memory, nor the storage, and its promise is fulfilled as that of a
    command that was carried out: the caller is told nothing. *)
Theorem invalid_command_is_silently_ignored c now w :
  ¬ permits c w → run c now w = (fulfilled (), w).
Proof.
  destruct c as [| |save]; simpl; intros Hnot.
  - by apply pauseTimer_ignored.
  - by apply resumeTimer_ignored.
  - apply stopTimer_ignored. by destruct (st_timer (w_app w)); [destruct Hnot|].
Qed.

Lemma invalid_command_is_silently_ignored_witness :
  ¬ permits Resume (startTimer 1000 "s1" "email" freshWorld).2
  ∧ run Resume 2000 (startTimer 1000 "s1" "email" freshWorld).2
    = (fulfilled (), (startTimer 1000 "s1" "email" freshWorld).2).
Proof.
  assert (¬ permits Resume (startTimer 1000 "s1" "email" freshWorld).2) as H
    by (by vm_compute).
  split; [exact H|].
  exact (invalid_command_is_silently_ignored Resume 2000 _ H).
Defined.

(** C3, as the specification states it, fails: a pause while idle is not
    permitted, and the caller sees its promise fulfilled, not rejected;
    the same is seen after a pause that was carried out. *)
Lemma pause_while_idle_reports_no_failure :
  ¬ permits Pause freshWorld
  ∧ (run Pause 60000 freshWorld).1 = fulfilled ()
  ∧ (run Pause 60000 freshWorld).1 ≠ rejected
  ∧ (run Pause 60000 (startTimer 1000 "s1" "email" freshWorld).2).1
    = (run Pause 60000 freshWorld).1.
Proof. repeat split; by vm_compute. Qed.

(** A failure of the storage, unlike a command out of place, is seen by
    the caller, and leaves everything as it was. *)
Lemma pauseTimer_storage_failure now w timer :
  st_timer (w_app w) = Some timer → t_status timer = running →
  falsy (t_intervalStart timer) = false → w_dbOk w = false →
  pauseTimer now w = (rejected, w).
Proof.
  unfold pauseTimer, mbind, Cmd_bind, getState, db_upsertSession.
  intros -> Hrun Hstart Hdb.
  rewrite bool_decide_eq_false_2 by (rewrite Hrun; by intros []).
  rewrite Hstart. simpl. by rewrite Hdb.
Qed.

(** *** The commands in the states that permit them *)

(** A pause from running closes the last interval at [now], adds its
    length to the elapsed time, and stores the session. *)
Lemma pauseTimer_closes_last now w timer t closed iv :
  st_timer (w_app w) = Some timer → t_status timer = running →
  t_intervalStart timer = Some t → t ≠ 0 → w_dbOk w = true →
  t_intervals timer = closed ++ [iv] →
  let intervals := closed ++ [ {| iv_start := iv_start iv; iv_end := Some now |} ] in
  let session :=
    {| s_id := t_sessionId timer; s_taskId := t_taskId timer;
       s_intervals := intervals; s_note := None |} in
  let updated :=
    {| t_sessionId := t_sessionId timer; t_taskId := t_taskId timer;
       t_status := paused; t_intervals := intervals;
       t_elapsedMs := t_elapsedMs timer + (now - t); t_intervalStart := None |} in
  pauseTimer now w
  = (fulfilled (),
     {| w_app := reducer (reducer (w_app w) (UPSERT_SESSION session))
                         (SET_TIMER (Some updated));
        w_db := <[t_sessionId timer := session]> (w_db w);
        w_dbOk := true |}).
Proof.
  intros Htimer Hrun Hstart Ht Hdb Hivs. simpl.
  unfold pauseTimer, mbind, Cmd_bind, getState, db_upsertSession, dispatch.
  rewrite Htimer, Hstart, Hivs, closeLast_app. simpl.
  rewrite bool_decide_eq_false_2 by (rewrite Hrun; by intros []).
  rewrite bool_decide_eq_false_2 by done. simpl.
  rewrite Hdb. simpl. rewrite ?Hdb. done.
Qed.

(** A resume from paused appends an interval open at [now] and stores the
    session. *)
Lemma resumeTimer_appends_open now w timer :
  st_timer (w_app w) = Some timer → t_status timer = paused →
  w_dbOk w = true →
  let intervals := t_intervals timer ++ [ {| iv_start := now; iv_end := None |} ] in
  let session :=
    {| s_id := t_sessionId timer; s_taskId := t_taskId timer;
       s_intervals := intervals; s_note := None |} in
  let updated :=
    {| t_sessionId := t_sessionId timer; t_taskId := t_taskId timer;
       t_status := running; t_intervals := intervals;
       t_elapsedMs := t_elapsedMs timer; t_intervalStart := Some now |} in
  resumeTimer now w
  = (fulfilled (),
     {| w_app := reducer (reducer (w_app w) (UPSERT_SESSION session))
                         (SET_TIMER (Some updated));
        w_db := <[t_sessionId timer := session]> (w_db w);
        w_dbOk := true |}).
Proof.
  intros Htimer Hpaused Hdb. simpl.
  unfold resumeTimer, mbind, Cmd_bind, getState, db_upsertSession, dispatch.
  rewrite Htimer.
  rewrite bool_decide_eq_false_2 by (rewrite Hpaused; by intros []).
  simpl. rewrite Hdb. simpl. rewrite ?Hdb. done.
Qed.

(** A stop that saves closes the trailing open interval at [now], stores
    the session and drops the timer. *)
Lemma stopTimer_save_closes_open now w timer closed iv :
  st_timer (w_app w) = Some timer → w_dbOk w = true →
  t_intervals timer = closed ++ [iv] → iv_end iv = None →
  let session :=
    {| s_id := t_sessionId timer; s_taskId := t_taskId timer;
       s_intervals :=
         closed ++ [ {| iv_start := iv_start iv; iv_end := Some now |} ];
       s_note := None |} in
  stopTimer now true w
  = (fulfilled (),
     {| w_app := reducer (reducer (w_app w) (UPSERT_SESSION session))
                         (SET_TIMER None);
        w_db := <[t_sessionId timer := session]> (w_db w);
        w_dbOk := true |}).
Proof.
  intros Htimer Hdb Hivs Hopen. simpl.
  unfold stopTimer, mbind, Cmd_bind, getState, db_upsertSession, dispatch.
  rewrite Htimer, Hivs, closeLast_app. simpl.
  rewrite bool_decide_eq_true_2 by done.
  rewrite Hdb. simpl. rewrite ?Hdb. done.
Qed.

(** A stop that does not save deletes the session and drops the timer. *)
Lemma stopTimer_cancel_deletes now w timer :
  st_timer (w_app w) = Some timer → w_dbOk w = true →
  stopTimer now false w
  = (fulfilled (),
     {| w_app := reducer (reducer (w_app w) (DELETE_SESSION (t_sessionId timer)))
                         (SET_TIMER None);
        w_db := delete (t_sessionId timer) (w_db w);
        w_dbOk := true |}).
Proof.
  intros Htimer Hdb.
  unfold stopTimer, mbind, Cmd_bind, getState, db_deleteSession, dispatch.
  rewrite Htimer. simpl. rewrite Hdb. simpl. rewrite ?Hdb. done.
Qed.

(** *** The scenario of the specification *)

Lemma scenario_two_intervals t0 sessionId taskId :
  t0 ≠ 0 →
  scenario t0 sessionId taskId freshWorld
  = (fulfilled (),
     {| w_app := {| st_sessions := [twoIntervals t0 sessionId taskId];
                    st_timer := None; st_interruptedSession := None |};
        w_db := {[ sessionId := twoIntervals t0 sessionId taskId ]};
        w_dbOk := true |})
  ∧ ∀ now, sessionTotalMs now (twoIntervals t0 sessionId taskId) = 120000.
Proof.
  intros Ht0. split.
  - unfold scenario, startTimer, pauseTimer, resumeTimer, stopTimer,
      mbind, Cmd_bind, getState, dispatch, db_upsertSession, freshWorld.
    repeat first
      [ rewrite (bool_decide_eq_false_2 (t0 = 0)) by done
      | rewrite (bool_decide_eq_true_2 (sessionId = sessionId)) by done
      | progress simpl ].
    rewrite !insert_insert_eq, insert_empty. done.
  - intros now. unfold sessionTotalMs. simpl. lia.
Qed.

(** C2 on the scenario as written. With the clock at 0 when the timer
    starts, [intervalStart] is 0, which is falsy: the pause at 60000 is
    ignored, then so is the resume at 120000, the timer being still
    running, and the stop at 180000 stores one interval of three minutes
    where two intervals of one minute each are expected. *)
Theorem scenario_at_zero_stores_one_interval :
  let started := (startTimer 0 "s1" "email" freshWorld).2 in
  let stored :=
    {| s_id := "s1"; s_taskId := "email";
       s_intervals := [ {| iv_start := 0; iv_end := Some 180000 |} ];
       s_note := None |} in
  statusOf started = running
  ∧ pauseTimer 60000 started = (fulfilled (), started)
  ∧ resumeTimer 120000 started = (fulfilled (), started)
  ∧ w_db (scenario 0 "s1" "email" freshWorld).2 = {[ "s1" := stored ]}
  ∧ stored ≠ twoIntervals 0 "s1" "email"
  ∧ sessionTotalMs 180000 stored = 180000.
Proof. repeat split; by vm_compute. Qed.

(** ** The two day bucketings *)

Section helpers.
Context (tz : TimeZone).
Hypothesis Hcoh : coherent tz.
Hypothesis Hinc : increasingDays tz.

Lemma midnight_mono d d' : d ≤ d' → midnight tz d ≤ midnight tz d'.
Proof.
  intros Hle. replace d' with (d + Z.of_nat (Z.to_nat (d' - d))) by lia.
  induction (Z.to_nat (d' - d)) as [|n IH]; [by rewrite Z.add_0_r|].
  pose proof (Hinc (d + Z.of_nat n)).
  replace (d + Z.of_nat (S n)) with (d + Z.of_nat n + 1) by lia. lia.
Qed.

Lemma midnight_lt d d' : d < d' → midnight tz d < midnight tz d'.
Proof.
  intros Hlt. pose proof (Hinc d). pose proof (midnight_mono (d + 1) d'). lia.
Qed.

Lemma dayOf_midnight d : dayOf tz (midnight tz d) = d.
Proof.
  pose proof (Hcoh (midnight tz d)) as [Hlo Hhi].
  destruct (Z.lt_trichotomy (dayOf tz (midnight tz d)) d) as [Hlt|[Heq|Hgt]]; [|done|].
  - pose proof (midnight_mono (dayOf tz (midnight tz d) + 1) d). lia.
  - pose proof (midnight_lt d (dayOf tz (midnight tz d))). lia.
Qed.

Lemma orElse_default (o : option Z) : orElse o 0 = default 0 o.
Proof. destruct o as [v|]; simpl; [|done]. by case_bool_decide. Qed.

Lemma timeByDay_loop_lookup fuel startMidnight endDate s e endDay cur m d :
  default 0 (timeByDay_loop fuel tz startMidnight endDate s e endDay cur m !! d)
  = default 0 (m !! d)
    + (if decide (cur ≤ d < cur + Z.of_nat fuel ∧ d ≤ endDay
                  ∧ midnight tz d ≤ endDate ∧ startMidnight ≤ d)
       then clippedOverlap tz d s e else 0).
Proof.
  revert cur m. induction fuel as [|n IH]; intros cur m; simpl.
  - rewrite decide_False by lia. lia.
  - destruct (bool_decide (cur ≤ endDay)) eqn:Hend; simpl.
    2:{ apply bool_decide_eq_false in Hend. rewrite decide_False by lia. lia. }
    apply bool_decide_eq_true in Hend.
    case_bool_decide as Hdate; simpl.
    2:{ rewrite decide_False; [lia|]. intros (Hd & _ & Hd' & _).
        pose proof (midnight_mono cur d). lia. }
    rewrite IH. unfold getStartOfDay, getEndOfDay. rewrite dayOf_midnight.
    destruct (decide (d = cur)) as [->|Hne].
    + rewrite (decide_False (P := cur + 1 ≤ cur < _ ∧ _)) by lia.
      case_bool_decide as Hsm.
      * rewrite decide_True by lia. unfold clippedOverlap.
        case_bool_decide.
        -- rewrite lookup_insert_eq, orElse_default. simpl. lia.
        -- lia.
      * rewrite decide_False by lia. lia.
    + assert (default 0 ((if bool_decide (startMidnight ≤ cur)
         then if bool_decide (Z.max s (midnight tz cur)
                              < Z.min e (midnight tz (cur + 1) - 1))
              then <[cur := orElse (m !! cur) 0
                             + (Z.min e (midnight tz (cur + 1) - 1)
                                - Z.max s (midnight tz cur))]> m
              else m
         else m) !! d) = default 0 (m !! d)) as ->.
      { repeat case_bool_decide; try done. by rewrite lookup_insert_ne. }
      f_equal. repeat case_decide; try done; lia.
Qed.


Lemma clippedOverlap_outside d s e :
  d < dayOf tz s ∨ dayOf tz e < d → clippedOverlap tz d s e = 0.
Proof.
  intros Hd. unfold clippedOverlap.
  pose proof (Hcoh s) as [Hs _]. pose proof (Hcoh e) as [_ He].
  destruct Hd as [Hd|Hd].
  - pose proof (midnight_mono (d + 1) (dayOf tz s)). lia.
  - pose proof (midnight_mono (dayOf tz e + 1) d). lia.
Qed.

Lemma timeByDay_interval_lookup now startMidnight endDate m iv d :
  startMidnight ≤ d → midnight tz d ≤ endDate →
  default 0 (timeByDay_interval tz now startMidnight endDate m iv !! d)
  = default 0 (m !! d)
    + clippedOverlap tz d (iv_start iv) (orElse (iv_end iv) now).
Proof.
  intros Hsm Hdate. unfold timeByDay_interval. rewrite timeByDay_loop_lookup.
  f_equal. case_decide as Hin; [done|]. symmetry.
  apply clippedOverlap_outside. lia.
Qed.

Lemma calculateTimeByDay_lookup now sessions startDate endDate d :
  dayOf tz startDate ≤ d → midnight tz d ≤ endDate →
  default 0 (calculateTimeByDay tz now sessions startDate endDate !! d)
  = sumZ (sessionClipped tz now d <$> sessions).
Proof.
  intros Hsm Hdate. unfold calculateTimeByDay.
  assert (∀ m, default 0
                 (foldl (λ timeByDay session,
                           foldl (timeByDay_interval tz now (dayOf tz startDate) endDate)
                                 timeByDay (s_intervals session)) m sessions !! d)
               = default 0 (m !! d) + sumZ (sessionClipped tz now d <$> sessions))
    as ->; [|by rewrite lookup_empty].
  induction sessions as [|s ss IH]; intros m; csimpl; [lia|].
  rewrite IH. unfold sessionClipped at 2.
  assert (∀ m, default 0
                 (foldl (timeByDay_interval tz now (dayOf tz startDate) endDate)
                        m (s_intervals s) !! d)
               = default 0 (m !! d)
                 + sumZ ((λ iv, clippedOverlap tz d (iv_start iv)
                                  (orElse (iv_end iv) now)) <$> s_intervals s))
    as ->; [|lia].
  clear IH. induction (s_intervals s) as [|iv ivs IH]; intros m'; csimpl; [lia|].
  rewrite IH, timeByDay_interval_lookup by done. lia.
Qed.

End helpers.

Lemma uniformDays_increasing tz : uniformDays tz → increasingDays tz.
Proof. intros Huni d. rewrite Huni. unfold MS_PER_DAY. lia. Qed.

(** On closed intervals, in a zone whose days have 24 hours, the two
    bucketings differ on a day by one millisecond for each interval that
    holds the last millisecond of the day, and by nothing else. *)
Lemma calculateTimeByDay_short_of_aggregateToDays
    tz now sessions startDate endDate d :
  coherent tz → uniformDays tz →
  Forall (λ s, Forall (λ iv, ∃ e, iv_end iv = Some e ∧ e ≠ 0) (s_intervals s))
         sessions →
  dayOf tz startDate ≤ d → midnight tz d ≤ endDate →
  totalMs (aggregateDay tz sessions d)
  = default 0 (calculateTimeByDay tz now sessions startDate endDate !! d)
    + sumZ (sessionLastMs tz d <$> sessions).
Proof.
  intros Hcoh Huni Hclosed Hstart Hend.
  rewrite aggregateDay_total.
  rewrite calculateTimeByDay_lookup
    by (done || by apply uniformDays_increasing).
  induction Hclosed as [|s ss Hs _ IH]; csimpl; [done|].
  rewrite IH. unfold sessionOverlap, sessionClipped, sessionLastMs.
  enough (sumZ (closedOverlap (midnight tz d) (midnight tz d + MS_PER_DAY)
                  <$> s_intervals s)
          = sumZ ((λ iv, clippedOverlap tz d (iv_start iv)
                           (orElse (iv_end iv) now)) <$> s_intervals s)
            + sumZ (lastMs tz d <$> s_intervals s)) by lia.
  clear IH. induction Hs as [|iv ivs (e & He & Hne) _ IH]; csimpl; [done|].
  rewrite IH. unfold closedOverlap, clippedOverlap, lastMs, overlap.
  rewrite He. simpl. rewrite bool_decide_eq_false_2 by done.
  rewrite Huni. unfold MS_PER_DAY. case_decide; lia.
Qed.

(** C10 on an interval across midnight. For the interval from 23:00 to
    01:00 [aggregateToDays] puts one hour into each of the two days;
    [calculateTimeByDay] ends the first day at 23:59:59.999 and puts a
    millisecond less into it. *)
Theorem calculateTimeByDay_ends_day_one_ms_early now :
  Forall (λ s, Forall (λ iv, iv_end iv ≠ None) (s_intervals s)) lateSession
  ∧ (λ day, (date day, totalMs day)) <$> aggregateToDays utc lateSession 0 1
    = [ (0, 3600000); (1, 3600000) ]
  ∧ calculateTimeByDay utc now lateSession (midnight utc 0) (midnight utc 1)
    = {[ 0 := 3599999; 1 := 3600000 ]}.
Proof.
  split; [by repeat constructor|]. split; by vm_compute.
Qed.

(** ** More on the aggregator *)

Lemma sumZ_fmap_ext {A} (f g : A → Z) l :
  (∀ x, x ∈ l → f x = g x) → sumZ (f <$> l) = sumZ (g <$> l).
Proof.
  induction l as [|x l IH]; intros H; csimpl; [done|].
  rewrite (H x) by (by left). rewrite IH; [done|]. intros y Hy. apply H. by right.
Qed.

Lemma overlap_adjacent a b c d e :
  c ≤ d → d ≤ e → overlap a b c d + overlap a b d e = overlap a b c e.
Proof. unfold overlap. lia. Qed.

Lemma sumZ_overlap_days tz s e d (n : nat) :
  uniformDays tz →
  sumZ ((λ d', overlap s e (midnight tz d') (midnight tz d' + MS_PER_DAY))
          <$> seqZ d (Z.of_nat n))
  = overlap s e (midnight tz d) (midnight tz (d + Z.of_nat n)).
Proof.
  intros Huni. revert d. induction n as [|n IH]; intros d.
  - simpl. rewrite Z.add_0_r. unfold overlap. lia.
  - rewrite seqZ_cons by lia. csimpl.
    replace (Z.pred (Z.of_nat (S n))) with (Z.of_nat n) by lia.
    replace (Z.succ d) with (d + 1) by lia.
    rewrite IH. rewrite <- Huni.
    replace (d + Z.of_nat (S n)) with (d + 1 + Z.of_nat n) by lia.
    apply overlap_adjacent.
    + rewrite Huni. unfold MS_PER_DAY. lia.
    + rewrite (uniformDays_shift tz (d + 1) (Z.of_nat n)) by done. unfold MS_PER_DAY. lia.
Qed.

Lemma sumZ_zero {A} (l : list A) : sumZ ((λ _, 0) <$> l) = 0.
Proof. induction l; csimpl; lia. Qed.

Lemma sumZ_plus {A} (f g : A → Z) l :
  sumZ ((λ x, f x + g x) <$> l) = sumZ (f <$> l) + sumZ (g <$> l).
Proof. induction l; csimpl; lia. Qed.

Lemma sumZ_swap {A B} (f : A → B → Z) (la : list A) (lb : list B) :
  sumZ ((λ a, sumZ (f a <$> lb)) <$> la)
  = sumZ ((λ b, sumZ ((λ a, f a b) <$> la)) <$> lb).
Proof.
  induction la as [|a la IH]; csimpl.
  - by rewrite sumZ_zero.
  - rewrite IH, <- sumZ_plus. done.
Qed.

Lemma sumZ_closedOverlap_days tz iv d (n : nat) :
  uniformDays tz →
  sumZ ((λ d', closedOverlap (midnight tz d') (midnight tz d' + MS_PER_DAY) iv)
          <$> seqZ d (Z.of_nat n))
  = closedOverlap (midnight tz d) (midnight tz (d + Z.of_nat n)) iv.
Proof.
  intros Huni. unfold closedOverlap. destruct (iv_end iv) as [e|].
  - by apply sumZ_overlap_days.
  - apply sumZ_zero.
Qed.

Lemma aggregateToDays_window_sum tz sessions dateStart dateEnd :
  uniformDays tz → dateStart ≤ dateEnd + 1 →
  sumZ (totalMs <$> aggregateToDays tz sessions dateStart dateEnd)
  = sumZ (sessionOverlap (midnight tz dateStart) (midnight tz (dateEnd + 1))
            <$> sessions).
Proof.
  intros Huni Hle. unfold aggregateToDays. rewrite dateRange_seqZ.
  rewrite <- list_fmap_compose.
  erewrite (sumZ_fmap_ext (totalMs ∘ aggregateDay tz sessions));
    [|intros d _; apply aggregateDay_total].
  rewrite sumZ_swap. apply sumZ_fmap_ext. intros s _.
  unfold sessionOverlap. rewrite sumZ_swap. apply sumZ_fmap_ext. intros iv _.
  replace (dateEnd - dateStart + 1) with (Z.of_nat (Z.to_nat (dateEnd - dateStart + 1))) by lia.
  rewrite sumZ_closedOverlap_days by done. f_equal. f_equal. lia.
Qed.

Lemma sessionOverlap_inside lo hi s :
  Forall (λ iv, ∃ e, iv_end iv = Some e ∧ lo ≤ iv_start iv ∧ iv_start iv ≤ e ∧ e ≤ hi)
         (s_intervals s) →
  ∀ now, sessionOverlap lo hi s = sessionTotalMs now s.
Proof.
  intros Hin now. unfold sessionOverlap, sessionTotalMs.
  assert (∀ a, foldl (λ acc iv, acc + (default now (iv_end iv) - iv_start iv)) a
                 (s_intervals s)
               = a + sumZ (closedOverlap lo hi <$> s_intervals s)) as ->; [|lia].
  induction Hin as [|iv ivs (e & He & H1 & H2 & H3) _ IH]; intros a; csimpl; [lia|].
  rewrite IH. unfold closedOverlap, overlap. rewrite He. simpl. lia.
Qed.

(** X1. The entry of a task on a day is the time of the closed intervals
    of its sessions inside the day; a task with no such time has no entry,
    so no entry is zero.  The map being a plain object, a task id that
    names a property of [Object.prototype] has no number: under
    ["__proto__"] nothing is stored, under another such name a string. *)
Theorem aggregateDay_task_entry tz sessions d t :
  byTask (aggregateDay tz sessions d) !! t
  = let ms := sumZ (sessionOverlap (midnight tz d) (midnight tz d + MS_PER_DAY)
                      <$> filter (λ s, s_taskId s = t) sessions) in
    if decide (0 < ms) then
      if bool_decide (t = "__proto__") then None
      else if inherited t then Some text
      else Some (number ms)
    else None.
Proof. apply aggregateDay_byTask. Qed.

(** *** One entry per day *)

(** X2. In a zone whose days have 24 hours, so that no local midnight is
    skipped, the aggregator returns one entry for each day from
    [dateStart] to [dateEnd], in order and dated with its day; none when
    [dateEnd] is before [dateStart]. *)
Theorem aggregateToDays_one_entry_per_day tz sessions dateStart dateEnd :
  uniformDays tz →
  date <$> aggregateToDays tz sessions dateStart dateEnd
  = seqZ dateStart (dateEnd - dateStart + 1)
  ∧ length (aggregateToDays tz sessions dateStart dateEnd)
    = Z.to_nat (dateEnd - dateStart + 1).
Proof.
  intros _. unfold aggregateToDays. rewrite length_fmap, <- list_fmap_compose.
  rewrite dateRange_seqZ, length_seqZ. split; [|done].
  rewrite <- (list_fmap_id (seqZ _ _)) at 2. apply list_fmap_ext.
  intros i d _. apply date_aggregateDay.
Qed.

Lemma aggregateToDays_one_entry_per_day_witness :
  uniformDays utc
  ∧ date <$> aggregateToDays utc lateSession 0 2 = [0; 1; 2]
  ∧ date <$> aggregateToDays utc lateSession 2 0 = [].
Proof.
  assert (uniformDays utc) as Huni by apply fixedOffset_uniformDays.
  split; [exact Huni|].
  destruct (aggregateToDays_one_entry_per_day utc lateSession 0 2 Huni) as [-> _].
  destruct (aggregateToDays_one_entry_per_day utc lateSession 2 0 Huni) as [-> _].
  split; reflexivity.
Defined.

(** *** No time is lost between the days *)

(** X3. In a zone whose days have 24 hours the totals of the days of a
    window add up to the time of the closed intervals inside the window: a
    millisecond is counted on one day and on one only. When every interval
    is closed and lies inside the window, that is the length of the
    sessions. *)
Theorem aggregateToDays_conserves_time tz sessions dateStart dateEnd :
  uniformDays tz → dateStart ≤ dateEnd + 1 →
  let lo := midnight tz dateStart in
  let hi := midnight tz (dateEnd + 1) in
  sumZ (totalMs <$> aggregateToDays tz sessions dateStart dateEnd)
  = sumZ (sessionOverlap lo hi <$> sessions)
  ∧ (Forall (λ s, Forall (λ iv, ∃ e, iv_end iv = Some e ∧ lo ≤ iv_start iv
                                     ∧ iv_start iv ≤ e ∧ e ≤ hi)
                         (s_intervals s)) sessions →
     ∀ now, sumZ (totalMs <$> aggregateToDays tz sessions dateStart dateEnd)
            = sumZ (sessionTotalMs now <$> sessions)).
Proof.
  intros Huni Hle lo hi.
  pose proof (aggregateToDays_window_sum tz sessions dateStart dateEnd Huni Hle)
    as Hsum.
  split; [done|]. intros Hinside now. rewrite Hsum.
  apply sumZ_fmap_ext. intros s Hs. apply sessionOverlap_inside.
  rewrite Forall_forall in Hinside. by apply Hinside.
Qed.

Lemma aggregateToDays_conserves_time_witness :
  uniformDays utc ∧ 0 ≤ 1 + 1
  ∧ sumZ (totalMs <$> aggregateToDays utc lateSession 0 1) = 7200000.
Proof.
  assert (uniformDays utc) as Huni by apply fixedOffset_uniformDays.
  assert (0 ≤ 1 + 1) as Hle by lia.
  split; [exact Huni|]. split; [exact Hle|].
  destruct (aggregateToDays_conserves_time utc lateSession 0 1 Huni Hle)
    as [Hsum _].
  rewrite Hsum. reflexivity.
Defined.

(** ** More on the merge *)

Lemma plus_0_r v : plus v (number 0) = v.
Proof. by rewrite plus_comm, plus_0_l. Qed.

Lemma assign_lookup_ne (m : gmap string Value) k v x :
  k ≠ x → assign m k v !! x = m !! x.
Proof.
  intros Hne. unfold assign. case_bool_decide; [done|].
  by rewrite lookup_insert_ne.
Qed.

(** What the merged object holds under a display id [x] that can be
    assigned: nothing while no entry has been sent to [x], and from then
    on what [byTask[x] ?? 0] first read plus the entries sent to [x]. *)
Lemma mergeDay_fold effectiveMap (m : gmap string Value) x :
  x ≠ "" → x ≠ "__proto__" →
  (map_fold (mergeEntry effectiveMap) (∅, number 0) m).1 !! x
  = if decide (sentTo effectiveMap x m = ∅) then None
    else Some (plus (readOr0 ∅ x) (sumValues (sentTo effectiveMap x m))).
Proof.
  intros Hx Hproto.
  pose (P := λ (acc : gmap string Value * Value) (entries : gmap string Value),
               acc.1 !! x
               = if decide (sentTo effectiveMap x entries = ∅) then None
                 else Some (plus (readOr0 ∅ x)
                                 (sumValues (sentTo effectiveMap x entries)))).
  apply (map_fold_weak_ind P); unfold P; clear P.
  - unfold sentTo. by rewrite map_filter_empty, decide_True.
  - intros k ms m' acc Hk IH. unfold mergeEntry, sentTo in *.
    destruct (effectiveMap !! k) as [displayId|] eqn:Hmap.
    + destruct (decide (displayId = x)) as [->|Hne].
      * rewrite bool_decide_eq_false_2 by done.
        rewrite map_filter_insert_True by done.
        assert (filter (λ kv : string * Value, effectiveMap !! kv.1 = Some x) m'
                  !! k = None)
          as Hfk by (apply map_lookup_filter_None; by left).
        rewrite decide_False by apply insert_non_empty.
        rewrite sumValues_insert_fresh by done.
        unfold accrueValue, assign. simpl.
        rewrite bool_decide_eq_false_2 by done. rewrite lookup_insert_eq.
        f_equal. unfold readOr0 at 1. rewrite IH. case_decide as Hsent.
        -- rewrite Hsent, sumValues_empty, plus_0_r.
           unfold readOr0. by rewrite lookup_empty.
        -- rewrite <- !plus_assoc. f_equal. apply plus_comm.
      * rewrite map_filter_insert_not
          by (intros y; simpl; rewrite Hmap; congruence).
        case_bool_decide; [done|]. unfold accrueValue. simpl.
        by rewrite assign_lookup_ne.
    + rewrite map_filter_insert_not by (intros y; simpl; by rewrite Hmap).
      done.
Qed.

(** Nothing is stored under the empty id, which the loop skips, nor under
    ["__proto__"], whose assignment is ignored. *)
Lemma mergeDay_fold_unassigned effectiveMap (m : gmap string Value) x :
  x = "" ∨ x = "__proto__" →
  (map_fold (mergeEntry effectiveMap) (∅, number 0) m).1 !! x = None.
Proof.
  intros Hx.
  apply (map_fold_weak_ind
           (λ (acc : gmap string Value * Value) (_ : gmap string Value),
              acc.1 !! x = None)).
  - done.
  - intros k ms m' acc _ IH. unfold mergeEntry.
    destruct (effectiveMap !! k) as [displayId|]; [|done].
    case_bool_decide as Hempty; [done|]. unfold accrueValue, assign. simpl.
    case_bool_decide as Hproto; [done|].
    rewrite lookup_insert_ne; [done|]. intros ->. by destruct Hx.
Qed.

Lemma mergeDay_byTask {T} effectiveMap (day : DayData T) x :
  byTask (mergeDay effectiveMap day) !! x
  = let sent := sentTo effectiveMap x (byTask day) in
    if decide (x = "" ∨ x = "__proto__" ∨ sent = ∅) then None
    else if inherited x then Some text
    else Some (sumValues sent).
Proof.
  unfold mergeDay.
  pose proof (mergeDay_fold effectiveMap (byTask day) x) as Hfold.
  pose proof (mergeDay_fold_unassigned effectiveMap (byTask day) x) as Hnone.
  destruct (map_fold _ _ _) as [merged total]. simpl in *.
  destruct (decide (x = "" ∨ x = "__proto__")) as [Hx|Hx].
  - rewrite decide_True by tauto. by apply Hnone.
  - rewrite Hfold by tauto.
    destruct (decide (sentTo effectiveMap x (byTask day) = ∅)) as [Hsent|Hsent].
    + by rewrite decide_True by tauto.
    + rewrite decide_False by tauto. unfold readOr0. rewrite lookup_empty.
      destruct (inherited x); [done|]. by rewrite plus_0_l.
Qed.

(** X4. Merging keeps the days and their dates; on each day the entry of a
    display id is the sum of the entries of the tasks mapped to it, and it
    is there exactly when some entry of the day is mapped to it.  The empty
    id never gets an entry, and the merged map being a plain object,
    neither does ["__proto__"], while another display id that names a
    property of [Object.prototype] holds a string. *)
Theorem mergeDayDataWithDisplay_lookup
    {T} (dayData : list (DayData T)) effectiveMap i :
  match dayData !! i with
  | None => mergeDayDataWithDisplay dayData effectiveMap !! i = None
  | Some day =>
      ∃ merged,
        mergeDayDataWithDisplay dayData effectiveMap !! i = Some merged
        ∧ date merged = date day
        ∧ ∀ x, byTask merged !! x
               = let sent := sentTo effectiveMap x (byTask day) in
                 if decide (x = "" ∨ x = "__proto__" ∨ sent = ∅) then None
                 else if inherited x then Some text
                 else Some (sumValues sent)
  end.
Proof.
  unfold mergeDayDataWithDisplay. rewrite list_lookup_fmap.
  destruct (dayData !! i) as [day|]; simpl; [|done].
  eexists. split; [done|]. split.
  - unfold mergeDay. by destruct (map_fold _ _ _).
  - apply mergeDay_byTask.
Qed.

(** *** Every task selected *)

Lemma every_task_selected_lookup fuel categories selectedIds m id :
  (∀ t, t ∈ tasksOf categories → c_id t ∈ selectedIds) →
  computeEffectiveDisplay fuel categories selectedIds = Some m →
  m !! id = if decide (id ∈ c_id <$> tasksOf categories ∧ id ≠ "")
            then Some id else None.
Proof.
  intros Hall Hm.
  pose proof (computeEffectiveDisplay_lookup fuel categories selectedIds m id)
    as Hlook.
  case_decide as Hid.
  - apply Hlook; [done|]. destruct Hid as [Hin Hne]. split; [done|].
    split; [|done]. constructor.
    apply list_elem_of_fmap in Hin as (t & -> & Ht). by apply Hall.
  - apply eq_None_not_Some. intros [d Hd].
    apply Hlook in Hd as (Hin & Hfirst & Hne); [|done].
    apply Hid. split; [done|].
    assert (firstSelected categories selectedIds id id) as Hself.
    { constructor. apply list_elem_of_fmap in Hin as (t & -> & Ht). by apply Hall. }
    by rewrite (firstSelected_det _ _ _ _ _ Hself Hfirst).
Qed.

Lemma every_task_selected_ends fuel categories selectedIds :
  (∀ t, t ∈ tasksOf categories → c_id t ∈ selectedIds) →
  is_Some (computeEffectiveDisplay (S fuel) categories selectedIds).
Proof.
  intros Hall. apply computeEffectiveDisplay_ends.
  intros t Ht. rewrite walk_S. rewrite bool_decide_eq_true_2 by by apply Hall.
  by eexists.
Qed.

(** X5. With every task selected, each walk ends at its first test, whatever
    the parent links are: a task is shown as itself, and only tasks (and
    never the empty id) are in the map. *)
Theorem computeEffectiveDisplay_every_task_selected fuel categories selectedIds :
  (∀ t, t ∈ tasksOf categories → c_id t ∈ selectedIds) →
  ∃ m, computeEffectiveDisplay (S fuel) categories selectedIds = Some m
       ∧ ∀ id, m !! id
               = if decide (id ∈ c_id <$> tasksOf categories ∧ id ≠ "")
                 then Some id else None.
Proof.
  intros Hall.
  destruct (every_task_selected_ends fuel categories selectedIds Hall) as [m Hm].
  exists m. split; [done|]. intros id. by eapply every_task_selected_lookup.
Qed.

Lemma computeEffectiveDisplay_every_task_selected_witness :
  ∃ m, computeEffectiveDisplay 1 cyclicList {[ "t" ]} = Some m
       ∧ m !! "t" = Some "t".
Proof.
  destruct (computeEffectiveDisplay_every_task_selected 0 cyclicList {[ "t" ]})
    as (m & Hm & Hlook).
  - intros t Ht. apply list_elem_of_In in Ht. vm_compute in Ht.
    destruct Ht as [<-|[]]. simpl. set_solver.
  - exists m. split; [exact Hm|]. rewrite Hlook. reflexivity.
Defined.




(** ** More on the averages *)

(** *** The averages per task *)




















(** ** More on the older bucketing *)

(** *** calculateTimeByDay: the days it records *)

Lemma inWindow_loop fuel tz startMidnight endDate s e endDay cur m :
  inWindow tz startMidnight endDate m →
  inWindow tz startMidnight endDate
    (timeByDay_loop fuel tz startMidnight endDate s e endDay cur m).
Proof.
  revert cur m. induction fuel as [|n IH]; intros cur m Hm; [done|]. simpl.
  destruct (bool_decide (cur ≤ endDay)); simpl; [|done].
  case_bool_decide as Hdate; simpl; [|done].
  apply IH. case_bool_decide as Hsm; [|done].
  case_bool_decide as Hpos; [|done].
  intros d v. destruct (decide (d = cur)) as [->|Hne].
  - rewrite lookup_insert_eq. intros [= <-]. split; [done|]. split; [done|].
    assert (0 ≤ orElse (m !! cur) 0); [|lia].
    destruct (m !! cur) as [v|] eqn:Hv; simpl; [|done].
    case_bool_decide; [done|]. apply Hm in Hv. lia.
  - rewrite lookup_insert_ne by done. apply Hm.
Qed.

Lemma inWindow_calculateTimeByDay tz now sessions startDate endDate :
  inWindow tz (dayOf tz startDate) endDate
    (calculateTimeByDay tz now sessions startDate endDate).
Proof.
  unfold calculateTimeByDay.
  assert (inWindow tz (dayOf tz startDate) endDate ∅) as Hm by done.
  revert Hm. generalize (∅ : gmap Z Z).
  induction sessions as [|s ss IH]; intros m Hm; [done|]. simpl. apply IH.
  clear IH. revert m Hm.
  induction (s_intervals s) as [|iv ivs IH]; intros m Hm; [done|]. simpl.
  apply IH. unfold timeByDay_interval. by apply inWindow_loop.
Qed.

(** X8. Whatever the zone and the data, a day recorded by
    [calculateTimeByDay] is not before the day of [startDate], its midnight
    is not after [endDate], and its time is positive: no day is recorded
    with zero. *)
Theorem calculateTimeByDay_window tz now sessions startDate endDate d v :
  calculateTimeByDay tz now sessions startDate endDate !! d = Some v →
  dayOf tz startDate ≤ d ∧ midnight tz d ≤ endDate ∧ 0 < v.
Proof. apply inWindow_calculateTimeByDay. Qed.

Lemma calculateTimeByDay_window_witness :
  calculateTimeByDay utc 0 lateSession 0 MS_PER_DAY !! 0 = Some 3599999
  ∧ 0 < 3599999.
Proof.
  split; [reflexivity|].
  apply (calculateTimeByDay_window utc 0 lateSession 0 MS_PER_DAY 0 3599999).
  reflexivity.
Defined.

(** X9. In a zone whose calendar is coherent and whose days have 24
    hours, so that no clock change skips a local midnight or repeats the
    last millisecond of a day, the entry of a day of the window is the time
    of the intervals inside the day up to its last millisecond, an open
    interval counted up to [now]; the entry is missing when that time is
    zero, and for every day outside the window. *)
Theorem calculateTimeByDay_entry tz now sessions startDate endDate d :
  coherent tz → uniformDays tz →
  calculateTimeByDay tz now sessions startDate endDate !! d
  = let ms := sumZ (sessionClipped tz now d <$> sessions) in
    if decide (dayOf tz startDate ≤ d ∧ midnight tz d ≤ endDate ∧ 0 < ms)
    then Some ms else None.
Proof.
  intros Hcoh Huni. simpl.
  assert (increasingDays tz) as Hinc by by apply uniformDays_increasing.
  pose proof (inWindow_calculateTimeByDay tz now sessions startDate endDate d)
    as Hwin.
  destruct (decide (dayOf tz startDate ≤ d ∧ midnight tz d ≤ endDate))
    as [[Hstart Hend]|Hout].
  - pose proof (calculateTimeByDay_lookup tz Hcoh Hinc now sessions
                  startDate endDate d Hstart Hend) as Hlook.
    destruct (calculateTimeByDay _ _ _ _ _ !! d) as [v|]; simpl in Hlook.
    + destruct (Hwin v eq_refl) as (_ & _ & Hv).
      rewrite decide_True by (rewrite <- Hlook; done). by rewrite Hlook.
    + rewrite decide_False; [done|]. rewrite <- Hlook. lia.
  - rewrite decide_False by (intros (? & ? & _); by apply Hout).
    destruct (calculateTimeByDay _ _ _ _ _ !! d) as [v|]; [|done].
    destruct (Hwin v eq_refl) as (? & ? & _). by destruct Hout.
Qed.

Lemma calculateTimeByDay_entry_witness :
  coherent utc ∧ uniformDays utc
  ∧ calculateTimeByDay utc 0 lateSession 0 MS_PER_DAY !! 1 = Some 3600000
  ∧ calculateTimeByDay utc 0 lateSession 0 MS_PER_DAY !! 2 = None.
Proof.
  assert (coherent utc) as Hcoh by apply fixedOffset_coherent.
  assert (uniformDays utc) as Huni by apply fixedOffset_uniformDays.
  split; [exact Hcoh|]. split; [exact Huni|].
  rewrite !(calculateTimeByDay_entry utc 0 lateSession 0 MS_PER_DAY _ Hcoh Huni).
  split; reflexivity.
Defined.

(** ** More on the store and the timer *)

(** *** The reducer on sessions *)

Lemma existsb_same_id sessions id :
  existsb (λ s, bool_decide (s_id s = id)) sessions = true
  ↔ id ∈ s_id <$> sessions.
Proof.
  rewrite existsb_exists, list_elem_of_fmap. split.
  - intros (s & Hin & Hs). exists s. apply bool_decide_eq_true in Hs.
    split; [done|]. by apply list_elem_of_In.
  - intros (s & -> & Hin). exists s. split; [by apply list_elem_of_In|].
    by apply bool_decide_eq_true.
Qed.

Lemma upsert_ids state session :
  s_id <$> st_sessions (reducer state (UPSERT_SESSION session))
  = if decide (s_id session ∈ s_id <$> st_sessions state)
    then s_id <$> st_sessions state
    else (s_id <$> st_sessions state) ++ [s_id session].
Proof.
  simpl. destruct (existsb _ _) eqn:Hex.
  - apply existsb_same_id in Hex. rewrite decide_True by done.
    rewrite <- list_fmap_compose. apply list_fmap_ext. intros _ s _. simpl.
    by case_bool_decide.
  - rewrite decide_False.
    + by rewrite fmap_app.
    + intros Hin. apply existsb_same_id in Hin. congruence.
Qed.

Lemma elem_of_upsert state session s :
  s ∈ st_sessions (reducer state (UPSERT_SESSION session))
  ↔ s = session ∨ (s ∈ st_sessions state ∧ s_id s ≠ s_id session).
Proof.
  simpl. destruct (existsb _ _) eqn:Hex.
  - apply existsb_same_id in Hex. rewrite list_elem_of_fmap. split.
    + intros (s0 & -> & Hin). case_bool_decide; [by left | by right].
    + intros [->|[Hin Hne]].
      * apply list_elem_of_fmap in Hex as (s0 & Hid & Hin).
        exists s0. split; [|done]. by rewrite bool_decide_eq_true_2.
      * exists s. split; [|done]. by rewrite bool_decide_eq_false_2.
  - assert (s_id session ∉ s_id <$> st_sessions state) as Hnot.
    { intros Hin. apply existsb_same_id in Hin. congruence. }
    rewrite elem_of_app, list_elem_of_singleton. split.
    + intros [Hin| ->]; [|by left]. right. split; [done|].
      intros Heq. apply Hnot. rewrite <- Heq. apply list_elem_of_fmap. eauto.
    + intros [->|[Hin _]]; [by right | by left].
Qed.

Lemma elem_of_delete state id s :
  s ∈ st_sessions (reducer state (DELETE_SESSION id))
  ↔ s ∈ st_sessions state ∧ s_id s ≠ id.
Proof. simpl. rewrite list_elem_of_filter. tauto. Qed.

Lemma upsert_NoDup state session :
  NoDup (s_id <$> st_sessions state) →
  NoDup (s_id <$> st_sessions (reducer state (UPSERT_SESSION session))).
Proof.
  intros Hnd. rewrite upsert_ids. case_decide; [done|].
  apply NoDup_app. split; [done|]. split; [|apply NoDup_singleton].
  intros x Hx ->%list_elem_of_singleton. done.
Qed.

Lemma delete_NoDup state id :
  NoDup (s_id <$> st_sessions state) →
  NoDup (s_id <$> st_sessions (reducer state (DELETE_SESSION id))).
Proof.
  simpl. generalize (st_sessions state). intros l. induction l as [|s l IH]; [done|].
  csimpl. rewrite !NoDup_cons. intros [Hs Hl]. rewrite filter_cons.
  case_decide; csimpl; [|by apply IH]. apply NoDup_cons. split; [|by apply IH].
  intros Hin. apply Hs. apply list_elem_of_fmap in Hin as (s' & -> & Hin).
  apply list_elem_of_filter in Hin as [_ Hin]. apply list_elem_of_fmap. eauto.
Qed.


(** *** Memory and storage *)

Lemma synced_upsert state store session :
  synced state store →
  synced (reducer state (UPSERT_SESSION session)) (<[s_id session := session]> store).
Proof.
  intros [Hnd Hdb]. split; [by apply upsert_NoDup|].
  intros id s. rewrite elem_of_upsert.
  destruct (decide (id = s_id session)) as [->|Hne].
  - rewrite lookup_insert_eq. split.
    + intros [= <-]. by split; [left|].
    + intros [[->|[_ Hs]] Hid]; [done | congruence].
  - rewrite lookup_insert_ne by done. rewrite Hdb. split.
    + intros [Hin Hid]. split; [|done]. right. split; [done | congruence].
    + intros [[->|[Hin _]] Hid]; [congruence | done].
Qed.

Lemma synced_delete state store id :
  synced state store →
  synced (reducer state (DELETE_SESSION id)) (delete id store).
Proof.
  intros [Hnd Hdb]. split; [by apply delete_NoDup|].
  intros id' s. rewrite elem_of_delete.
  destruct (decide (id' = id)) as [->|Hne].
  - rewrite lookup_delete_eq. split; [done|]. by intros [[_ Hs] Hid].
  - rewrite lookup_delete_ne by done. rewrite Hdb. split.
    + intros [Hin Hid]. split; [|done]. split; [done | congruence].
    + by intros [[Hin _] Hid].
Qed.

Lemma synced_upsert_at state store session id :
  id = s_id session → synced state store →
  synced (reducer state (UPSERT_SESSION session)) (<[id := session]> store).
Proof. intros ->. apply synced_upsert. Qed.

Lemma synced_set_timer state store timer :
  synced state store → synced (reducer state (SET_TIMER timer)) store.
Proof. done. Qed.

Lemma synced_clear_interrupted state store :
  synced state store → synced (reducer state CLEAR_INTERRUPTED) store.
Proof. done. Qed.

Ltac unfold_commands :=
  unfold call, run, startTimer, pauseTimer, resumeTimer, stopTimer,
    resumeInterrupted, closeInterrupted, dismissInterrupted,
    upsertSession, deleteSession,
    mbind, Cmd_bind, mret, Cmd_ret, getState, dispatch,
    db_upsertSession, db_deleteSession.

Ltac synced_steps :=
  repeat lazymatch goal with
    | |- synced (reducer _ (SET_TIMER _)) _ => apply synced_set_timer
    | |- synced (reducer _ CLEAR_INTERRUPTED) _ => apply synced_clear_interrupted
    | |- synced (reducer _ (UPSERT_SESSION _)) _ =>
        apply synced_upsert_at; [reflexivity|]
    | |- synced (reducer _ (DELETE_SESSION _)) _ => apply synced_delete
    | |- synced _ _ => assumption
    end.

Section inSync.
Local Arguments reducer : simpl never.

Lemma inSync_call k w : inSync w → inSync (call k w).2.
Proof.
  unfold inSync. intros Hw. destruct k as [now sid tid|now [| |save]|now session|];
    unfold_commands.
  - destruct (w_dbOk w); simpl; synced_steps.
  - destruct (st_timer (w_app w)) as [timer|]; [|done].
    destruct (_ || _); [done|]. destruct (w_dbOk w); simpl; synced_steps.
  - destruct (st_timer (w_app w)) as [timer|]; [|done].
    destruct (bool_decide _); [done|]. destruct (w_dbOk w); simpl; synced_steps.
  - destruct (st_timer (w_app w)) as [timer|]; [|done].
    destruct save; destruct (w_dbOk w); simpl; synced_steps.
  - destruct (w_dbOk w); simpl; synced_steps.
  - simpl. synced_steps.
Qed.

Lemma inSync_closeInterrupted now session w :
  inSync w → inSync (closeInterrupted now session w).2.
Proof.
  unfold inSync. intros Hw. unfold_commands.
  destruct (w_dbOk w); simpl; synced_steps.
Qed.

Lemma inSync_upsertSession session w :
  inSync w → inSync (upsertSession session w).2.
Proof.
  unfold inSync. intros Hw. unfold_commands.
  destruct (w_dbOk w); simpl; synced_steps.
Qed.

Lemma inSync_deleteSession id w :
  inSync w → inSync (deleteSession id w).2.
Proof.
  unfold inSync. intros Hw. unfold_commands.
  destruct (w_dbOk w); simpl; synced_steps.
Qed.

End inSync.

Lemma inSync_freshWorld : inSync freshWorld.
Proof.
  split; [constructor|]. intros id s. simpl. rewrite lookup_empty.
  split; [done|]. by intros [?%elem_of_nil _].
Qed.

Lemma inSync_after calls w : inSync w → inSync (after calls w).
Proof.
  unfold after. revert w. induction calls as [|k calls IH]; intros w Hw; [done|].
  simpl. apply IH. by apply inSync_call.
Qed.

Lemma closedMs_app l1 l2 : closedMs (l1 ++ l2) = closedMs l1 + closedMs l2.
Proof. unfold closedMs. by rewrite fmap_app, sumZ_app. Qed.

Lemma closeOpen_closed now intervals :
  Forall (λ iv, iv_end iv ≠ None) (closeOpen now intervals).
Proof.
  unfold closeOpen. apply Forall_fmap, Forall_forall. intros iv _. simpl.
  by case_bool_decide.
Qed.

Lemma foldl_duration now a intervals :
  Forall (λ iv, iv_end iv ≠ None) intervals →
  foldl (λ acc iv, acc + (default now (iv_end iv) - iv_start iv)) a intervals
  = a + closedMs intervals.
Proof.
  unfold closedMs. intros Hclosed. revert a.
  induction Hclosed as [|iv ivs Hiv _ IH]; intros a; csimpl; [lia|].
  rewrite IH. destruct (iv_end iv); [simpl; lia | done].
Qed.

Lemma falsy_false_Some x : falsy x = false → ∃ v, x = Some v ∧ v ≠ 0.
Proof.
  destruct x as [v|]; simpl; [|done]. intros Hv%bool_decide_eq_false. eauto.
Qed.

Section timer.
Local Arguments reducer : simpl never.

Lemma timerMirrorsSession_call k w :
  timerMirrorsSession w → timerMirrorsSession (call k w).2.
Proof.
  unfold timerMirrorsSession. intros Hw.
  destruct k as [now sid tid|now [| |save]|now session|]; unfold_commands.
  - (* start *)
    destruct (w_dbOk w); simpl; [|done]. split.
    + exists [], now. by repeat split.
    + eexists. rewrite lookup_insert_eq. by repeat split.
  - (* pause *)
    destruct (st_timer (w_app w)) as [timer|] eqn:Htimer; simpl; [|by rewrite Htimer].
    destruct (bool_decide (t_status timer ≠ running)) eqn:Hrun; simpl;
      [by rewrite Htimer|].
    destruct (falsy (t_intervalStart timer)) eqn:Hstart; simpl; [by rewrite Htimer|].
    destruct (w_dbOk w); simpl; [|by rewrite Htimer].
    apply bool_decide_eq_false in Hrun. apply dec_stable in Hrun.
    destruct Hw as [Hshape _]. unfold timerShape in Hshape. rewrite Hrun in Hshape.
    destruct Hshape as (closed & start & Hivs & Hst & Hclosed & Hel).
    rewrite Hivs, closeLast_app, Hst. simpl. split.
    + unfold timerShape. simpl. split; [|split; [done|]].
      * apply Forall_app. split; [done|]. by repeat constructor.
      * rewrite closedMs_app, Hel. unfold closedMs. simpl. lia.
    + eexists. rewrite lookup_insert_eq. by repeat split.
  - (* resume *)
    destruct (st_timer (w_app w)) as [timer|] eqn:Htimer; simpl; [|by rewrite Htimer].
    destruct (bool_decide (t_status timer ≠ paused)) eqn:Hpaused; simpl;
      [by rewrite Htimer|].
    destruct (w_dbOk w); simpl; [|by rewrite Htimer].
    apply bool_decide_eq_false in Hpaused. apply dec_stable in Hpaused.
    destruct Hw as [Hshape _]. unfold timerShape in Hshape. rewrite Hpaused in Hshape.
    destruct Hshape as (Hclosed & Hst & Hel). split.
    + exists (t_intervals timer), now. by repeat split.
    + eexists. rewrite lookup_insert_eq. by repeat split.
  - (* stop *)
    destruct (st_timer (w_app w)) as [timer|] eqn:Htimer; simpl; [|by rewrite Htimer].
    destruct save; destruct (w_dbOk w); simpl; by rewrite ?Htimer.
  - (* resume an interrupted session *)
    destruct (w_dbOk w); simpl; [|done]. split.
    + exists (closeOpen now (s_intervals session)), now.
      split; [done|]. split; [done|]. split; [apply closeOpen_closed|].
      rewrite foldl_duration by apply closeOpen_closed. apply Z.add_0_l.
    + eexists. rewrite lookup_insert_eq. by repeat split.
  - (* dismiss *)
    done.
Qed.

End timer.

Lemma timerMirrorsSession_after calls w :
  timerMirrorsSession w → timerMirrorsSession (after calls w).
Proof.
  unfold after. revert w. induction calls as [|k calls IH]; intros w Hw; [done|].
  simpl. apply IH. by apply timerMirrorsSession_call.
Qed.

Lemma sessionTotalMs_app now s closed iv :
  s_intervals s = closed ++ [iv] →
  Forall (λ iv, iv_end iv ≠ None) closed →
  sessionTotalMs now s = closedMs closed + (default now (iv_end iv) - iv_start iv).
Proof.
  intros Hivs Hclosed. unfold sessionTotalMs. rewrite Hivs, foldl_app. simpl.
  rewrite foldl_duration by done. lia.
Qed.

(** What [getElapsedMs] shows is the length of the stored session. *)
Lemma getElapsedMs_mirrors now w timer :
  timerMirrorsSession w →
  st_timer (w_app w) = Some timer → t_intervalStart timer ≠ Some 0 →
  ∃ s, w_db w !! t_sessionId timer = Some s
       ∧ getElapsedMs now (w_app w) = sessionTotalMs now s.
Proof.
  unfold timerMirrorsSession, getElapsedMs. intros Hw Htimer Hstart.
  rewrite Htimer in *. destruct Hw as [Hshape (s & Hs & _ & Hivs)].
  exists s. split; [done|]. unfold timerShape in Hshape.
  destruct (t_status timer) eqn:Hstatus; simpl in Hshape; [done| |].
  - destruct Hshape as (closed & start & Hti & Hst & Hclosed & Hel).
    rewrite Hst in *. simpl.
    rewrite (bool_decide_eq_false_2 (start = 0)) by congruence. simpl.
    rewrite (sessionTotalMs_app now s closed {| iv_start := start; iv_end := None |})
      by (done || congruence).
    simpl. lia.
  - destruct Hshape as (Hclosed & Hst & Hel). simpl.
    unfold sessionTotalMs. rewrite Hivs, foldl_duration by done. lia.
Qed.

Lemma timerMirrorsSession_freshWorld : timerMirrorsSession freshWorld.
Proof. done. Qed.

(** X10. After any sequence of calls the time the timer shows is the length,
    at the same reading of the clock, of its session as storage and memory
    hold it, unless the running interval started at timestamp 0. *)
Theorem getElapsedMs_is_stored_duration calls w now timer :
  inSync w → timerMirrorsSession w →
  st_timer (w_app (after calls w)) = Some timer →
  t_intervalStart timer ≠ Some 0 →
  ∃ s, w_db (after calls w) !! t_sessionId timer = Some s
       ∧ s ∈ st_sessions (w_app (after calls w))
       ∧ getElapsedMs now (w_app (after calls w)) = sessionTotalMs now s.
Proof.
  intros Hsync Hmirror Htimer Hstart.
  destruct (getElapsedMs_mirrors now (after calls w) timer) as (s & Hs & Hel);
    [by apply timerMirrorsSession_after | done..|].
  exists s. split; [done|]. split; [|done].
  pose proof (inSync_after calls w Hsync) as [_ Hstored].
  by apply Hstored in Hs as [Hin _].
Qed.

Lemma getElapsedMs_is_stored_duration_witness :
  let calls := [ CallStart 1000 "s1" "email"; CallRun 61000 Pause;
                 CallRun 121000 Resume ] in
  inSync freshWorld ∧ timerMirrorsSession freshWorld
  ∧ ∃ timer, st_timer (w_app (after calls freshWorld)) = Some timer
             ∧ t_intervalStart timer ≠ Some 0
             ∧ getElapsedMs 150000 (w_app (after calls freshWorld)) = 89000
             ∧ ∃ s, w_db (after calls freshWorld) !! t_sessionId timer = Some s
                    ∧ s ∈ st_sessions (w_app (after calls freshWorld))
                    ∧ getElapsedMs 150000 (w_app (after calls freshWorld))
                      = sessionTotalMs 150000 s.
Proof.
  intros calls.
  split; [exact inSync_freshWorld|].
  split; [exact timerMirrorsSession_freshWorld|].
  eexists. split; [reflexivity|].
  assert (Some 121000 ≠ Some 0) as Hne by discriminate.
  split; [exact Hne|]. split; [reflexivity|].
  exact (getElapsedMs_is_stored_duration calls freshWorld 150000 _
           inSync_freshWorld timerMirrorsSession_freshWorld eq_refl Hne).
Defined.

(** X11. A pause at [t1] followed by a resume at [t2] takes the gap between
    the two, and nothing else, out of the elapsed time. *)
Theorem pause_resume_takes_out_the_gap now t1 t2 w timer start :
  st_timer (w_app w) = Some timer → t_status timer = running →
  t_intervalStart timer = Some start → start ≠ 0 → t2 ≠ 0 →
  w_dbOk w = true →
  getElapsedMs now (w_app (resumeTimer t2 (pauseTimer t1 w).2).2)
  = getElapsedMs now (w_app w) - (t2 - t1).
Proof.
  intros Htimer Hrun Hstart Hne Ht2 Hdb.
  unfold getElapsedMs at 2. rewrite Htimer, Hrun, Hstart. simpl.
  rewrite (bool_decide_eq_false_2 (start = 0)) by done. simpl.
  unfold pauseTimer, resumeTimer, mbind, Cmd_bind, mret, Cmd_ret, getState, dispatch,
    db_upsertSession.
  rewrite Htimer, Hrun, Hstart. simpl.
  rewrite (bool_decide_eq_false_2 (start = 0)) by done. simpl. rewrite Hdb. simpl.
  unfold getElapsedMs. simpl.
  rewrite (bool_decide_eq_false_2 (t2 = 0)) by done. simpl. lia.
Qed.

(** *** Interrupted sessions *)



Lemma closeOpen_keeps_closed now intervals :
  Forall (λ iv, iv_end iv ≠ None) intervals → closeOpen now intervals = intervals.
Proof.
  unfold closeOpen. induction 1 as [|iv ivs Hiv _ IH]; csimpl; [done|].
  rewrite IH. by rewrite bool_decide_eq_false_2.
Qed.

Section interrupted.
Local Arguments reducer : simpl never.


End interrupted.


Lemma foldl_closeOpen now a intervals :
  foldl (λ acc iv, acc + (default now (iv_end iv) - iv_start iv)) a
        (closeOpen now intervals)
  = foldl (λ acc iv, acc + (default now (iv_end iv) - iv_start iv)) a intervals.
Proof.
  unfold closeOpen. revert a.
  induction intervals as [|iv ivs IH]; intros a; csimpl; [done|].
  rewrite IH. f_equal. case_bool_decide as Hiv; simpl.
  - by rewrite Hiv.
  - done.
Qed.

(** X13. Resuming an interrupted session at [now] closes its open interval
    at [now], opens a new one, keeps the note, and the timer then shows the
    length the session had at [now] plus the time since. *)
Theorem resumeInterrupted_continues now later session w :
  w_dbOk w = true → now ≠ 0 →
  let w' := (resumeInterrupted now session w).2 in
  statusOf w' = running
  ∧ getElapsedMs later (w_app w') = sessionTotalMs now session + (later - now)
  ∧ st_interruptedSession (w_app w') = None
  ∧ ∃ s, w_db w' !! s_id session = Some s
         ∧ s_taskId s = s_taskId session
         ∧ s_note s = s_note session
         ∧ s_intervals s
           = closeOpen now (s_intervals session)
             ++ [ {| iv_start := now; iv_end := None |} ].
Proof.
  intros Hdb Hnow w'.
  unfold w', resumeInterrupted, mbind, Cmd_bind, dispatch, db_upsertSession.
  rewrite Hdb. unfold statusOf, getElapsedMs. simpl.
  rewrite (bool_decide_eq_false_2 (now = 0)) by done. simpl.
  split; [done|]. split; [by rewrite foldl_closeOpen|]. split; [done|].
  eexists. split; [apply lookup_insert_eq|]. done.
Qed.

Lemma resumeInterrupted_continues_witness :
  let session := {| s_id := "a"; s_taskId := "email";
                    s_intervals := [ {| iv_start := 1000; iv_end := Some 51000 |};
                                     {| iv_start := 60000; iv_end := None |} ];
                    s_note := Some "inbox" |} in
  let w := {| w_app := {| st_sessions := [session]; st_timer := None;
                          st_interruptedSession := Some session |};
              w_db := {[ "a" := session ]}; w_dbOk := true |} in
  w_dbOk w = true ∧ 90000 ≠ 0
  ∧ getElapsedMs 100000 (w_app (resumeInterrupted 90000 session w).2) = 90000.
Proof.
  intros session w. split; [reflexivity|]. split; [done|].
  destruct (resumeInterrupted_continues 90000 100000 session w eq_refl)
    as (_ & Helapsed & _); [done|].
  exact Helapsed.
Defined.

Lemma closeLast_snoc p now closed iv :
  closeLast p now (closed ++ [iv])
  = closed ++ [ if p iv then {| iv_start := iv_start iv; iv_end := Some now |}
                else iv ].
Proof.
  unfold closeLast. rewrite imap_app. f_equal.
  - rewrite <- (list_fmap_id closed) at 2. rewrite <- imap_const.
    apply imap_ext. intros i x Hi. simpl.
    apply lookup_lt_Some in Hi. rewrite length_app. simpl.
    rewrite bool_decide_eq_false_2 by lia. done.
  - simpl. rewrite length_app. simpl.
    rewrite bool_decide_eq_true_2 by lia. done.
Qed.

(** X14. The timer commands write the session as id, task and intervals
    only: pausing a session that was resumed after an interruption stores it
    without the note it had. *)
Theorem pause_after_resumeInterrupted_drops_note now t1 session w :
  w_dbOk w = true → now ≠ 0 →
  ∃ s, w_db (pauseTimer t1 (resumeInterrupted now session w).2).2 !! s_id session
       = Some s
       ∧ s_note s = None
       ∧ s_taskId s = s_taskId session
       ∧ s_intervals s
         = closeOpen now (s_intervals session)
           ++ [ {| iv_start := now; iv_end := Some t1 |} ].
Proof.
  intros Hdb Hnow.
  unfold pauseTimer, resumeInterrupted, mbind, Cmd_bind, getState, dispatch,
    db_upsertSession.
  rewrite Hdb. simpl.
  rewrite (bool_decide_eq_false_2 (now = 0)) by done. simpl.
  rewrite ?Hdb. simpl.
  eexists. split; [apply lookup_insert_eq|]. simpl.
  split; [done|]. split; [done|]. by rewrite closeLast_snoc.
Qed.

Lemma pause_after_resumeInterrupted_drops_note_witness :
  let session := {| s_id := "a"; s_taskId := "email";
                    s_intervals := [ {| iv_start := 60000; iv_end := None |} ];
                    s_note := Some "inbox" |} in
  let w := {| w_app := {| st_sessions := [session]; st_timer := None;
                          st_interruptedSession := Some session |};
              w_db := {[ "a" := session ]}; w_dbOk := true |} in
  w_dbOk w = true ∧ 90000 ≠ 0
  ∧ ∃ s, w_db (pauseTimer 95000 (resumeInterrupted 90000 session w).2).2 !! "a"
         = Some s ∧ s_note s = None.
Proof.
  intros session w. split; [reflexivity|]. split; [done|].
  destruct (pause_after_resumeInterrupted_drops_note 90000 95000 session w eq_refl)
    as (s & Hs & Hnote & _); [done|].
  exists s. split; [exact Hs | exact Hnote].
Defined.



Section failure.
Local Arguments reducer : simpl never.

(** X16. When storage refuses its requests, no call that writes a session
    changes anything: memory keeps the state it had, so it never runs ahead
    of storage. *)
Theorem storage_failure_changes_nothing k w :
  w_dbOk w = false → k ≠ CallDismissInterrupted → (call k w).2 = w.
Proof.
  intros Hdb Hk.
  destruct k as [now sid tid|now [| |save]|now session|]; [..|done];
    unfold call, run, startTimer, pauseTimer, resumeTimer, stopTimer,
      resumeInterrupted, mbind, Cmd_bind, mret, Cmd_ret, getState,
      db_upsertSession, db_deleteSession; simpl; rewrite ?Hdb; try done.
  - destruct (st_timer (w_app w)) as [timer|]; [|done].
    destruct (_ || _); [done|]. simpl. by rewrite Hdb.
  - destruct (st_timer (w_app w)) as [timer|]; [|done].
    destruct (bool_decide _); [done|]. simpl. by rewrite Hdb.
  - destruct (st_timer (w_app w)) as [timer|]; [|done].
    destruct save; simpl; by rewrite Hdb.
Qed.

End failure.

Lemma storage_failure_changes_nothing_witness :
  let w := {| w_app := initialState; w_db := ∅; w_dbOk := false |} in
  (call (CallStart 1000 "s1" "email") w).2 = w.
Proof.
  intros w. apply storage_failure_changes_nothing; [reflexivity | discriminate].
Defined.

(** *** The reducer *)

(** X17. The last write of a session wins: two upserts under one id leave
    what the second alone leaves. *)
Theorem upsert_upsert state s s' :
  s_id s = s_id s' →
  reducer (reducer state (UPSERT_SESSION s)) (UPSERT_SESSION s')
  = reducer state (UPSERT_SESSION s').
Proof.
  intros Hid. unfold reducer; simpl. rewrite Hid.
  destruct (existsb _ (st_sessions state)) eqn:Hex.
  - assert (existsb (λ x, bool_decide (s_id x = s_id s'))
              ((λ x, if bool_decide (s_id x = s_id s') then s else x)
                 <$> st_sessions state) = true) as ->.
    { apply existsb_exists in Hex as (x & Hx & Hxid).
      apply existsb_exists. exists s. split; [|by apply bool_decide_eq_true].
      apply list_elem_of_In, list_elem_of_fmap. exists x.
      rewrite Hxid. split; [done|]. by apply list_elem_of_In. }
    f_equal. rewrite <- list_fmap_compose. apply list_fmap_ext.
    intros i x _. simpl. destruct (bool_decide (s_id x = s_id s')) eqn:Hx.
    + by rewrite bool_decide_eq_true_2.
    + by rewrite Hx.
  - rewrite existsb_app, Hex. simpl.
    rewrite bool_decide_eq_true_2 by done. simpl. f_equal.
    rewrite fmap_app. simpl. rewrite bool_decide_eq_true_2 by done. f_equal.
    rewrite <- (list_fmap_id (st_sessions state)) at 2.
    apply list_fmap_ext. intros i x Hx. simpl.
    case_bool_decide as Hxid; [|done]. exfalso.
    apply not_true_iff_false in Hex. apply Hex, existsb_exists.
    exists x. split; [|by apply bool_decide_eq_true].
    by apply list_elem_of_In, list_elem_of_lookup_2 with i.
Qed.

Lemma upsert_upsert_witness :
  let s := {| s_id := "a"; s_taskId := "email";
              s_intervals := [ {| iv_start := 1; iv_end := None |} ];
              s_note := None |} in
  let s' := {| s_id := "a"; s_taskId := "email";
               s_intervals := [ {| iv_start := 1; iv_end := Some 9 |} ];
               s_note := None |} in
  st_sessions (reducer (reducer initialState (UPSERT_SESSION s))
                       (UPSERT_SESSION s')) = [s'].
Proof.
  intros s s'. by rewrite (upsert_upsert initialState s s').
Defined.

(** X18. Deleting an id after an upsert under it leaves the list as deleting
    it alone does; no session with that id is left. *)
Theorem upsert_delete state s :
  st_sessions (reducer (reducer state (UPSERT_SESSION s)) (DELETE_SESSION (s_id s)))
  = st_sessions (reducer state (DELETE_SESSION (s_id s)))
  ∧ s_id s ∉ s_id <$> st_sessions (reducer state (DELETE_SESSION (s_id s))).
Proof.
  split.
  - unfold reducer; simpl. destruct (existsb _ _).
    + induction (st_sessions state) as [|x l IH]; csimpl; [done|].
      case_bool_decide as Hx.
      * rewrite !filter_cons_False by (simpl; by intros []). done.
      * rewrite !filter_cons_True by done. by rewrite IH.
    + rewrite filter_app. rewrite filter_cons_False by (simpl; by intros []).
      by rewrite filter_nil, app_nil_r.
  - simpl. intros (x & Hid & Hx)%list_elem_of_fmap.
    by apply list_elem_of_filter in Hx as [Hne _].
Qed.

(** *** Interrupted-session detection on any data *)

Lemma mathMax_greatest xs m :
  mathMax xs = Some m → m ∈ xs ∧ ∀ x, x ∈ xs → x ≤ m.
Proof.
  revert m. induction xs as [|x xs IH]; intros m; [done|].
  rewrite mathMax_cons. destruct (mathMax xs) as [m'|] eqn:Hm; simpl; intros [= <-].
  - destruct (IH m' eq_refl) as [Hin Hmax]. split.
    + destruct (Z.max_spec x m') as [[_ ->]|[_ ->]]; [by right | by left].
    + intros y [->|Hy]%elem_of_cons; [lia|]. apply Hmax in Hy. lia.
  - destruct xs as [|x' xs']; [|by rewrite mathMax_cons in Hm].
    split; [by left|]. by intros y ->%list_elem_of_singleton.
Qed.

Lemma mathMax_is_Some x xs : x ∈ xs → is_Some (mathMax xs).
Proof.
  destruct xs as [|x' xs]; [by intros ?%elem_of_nil|]. intros _.
  rewrite mathMax_cons. by eexists.
Qed.

(** X19. Whatever the sessions hold, the session that detection returns has
    an open interval, and no session with an open interval has an interval,
    open or closed, that starts later than every interval of it: the
    sessions are ranked by their latest start. *)
Theorem findInterruptedSession_ranks_by_latest_start sessions s :
  findInterruptedSession sessions = Some s →
  s ∈ sessions
  ∧ hasOpen s = true
  ∧ ∀ s' iv', s' ∈ sessions → hasOpen s' = true → iv' ∈ s_intervals s' →
              ∃ iv, iv ∈ s_intervals s ∧ iv_start iv' ≤ iv_start iv.
Proof.
  unfold findInterruptedSession. case_bool_decide as Hlen; [done|].
  intros Hhead.
  apply head_sortBy_least in Hhead as [Hs Hleast];
    [|apply compareStart_trans | apply compareStart_total].
  apply list_elem_of_filter in Hs as [Hopen Hs].
  split; [done|]. split; [done|].
  intros s' iv' Hs' Hopen' Hiv'.
  assert (s' ∈ filter (λ s, hasOpen s = true) sessions) as Hin
    by by apply list_elem_of_filter.
  apply Hleast in Hin.
  apply hasOpen_true in Hopen as (iv0 & Hiv0 & _).
  destruct (mathMax_is_Some (iv_start iv0) (iv_start <$> s_intervals s))
    as [a Ha]; [by apply list_elem_of_fmap_2|].
  destruct (mathMax_is_Some (iv_start iv') (iv_start <$> s_intervals s'))
    as [b Hb]; [by apply list_elem_of_fmap_2|].
  apply (compareStart_Some s s' a b) in Hin; [|done..].
  apply mathMax_greatest in Ha as [(iv & -> & Hiv)%list_elem_of_fmap _].
  apply mathMax_greatest in Hb as [_ Hb].
  exists iv. split; [done|].
  assert (iv_start iv' ≤ b) by by apply Hb, list_elem_of_fmap_2.
  lia.
Qed.

Lemma findInterruptedSession_ranks_by_latest_start_witness :
  ∃ s, findInterruptedSession crashedSessions = Some s
       ∧ s ∈ crashedSessions ∧ hasOpen s = true.
Proof.
  eexists. split; [reflexivity|].
  destruct (findInterruptedSession_ranks_by_latest_start crashedSessions _ eq_refl)
    as (Hin & Hopen & _).
  split; [exact Hin | exact Hopen].
Defined.

(** *** Reload with a running timer *)

(** X20. Whatever the calls have been, a timer that is running has its
    session in storage with an open interval, so a reload of the application
    finds an interrupted session. *)
Theorem running_timer_is_found_on_reload calls w timer sessions :
  timerMirrorsSession w →
  st_timer (w_app (after calls w)) = Some timer →
  t_status timer = running →
  holdsStore (after calls w) sessions →
  ∃ s, findInterruptedSession sessions = Some s ∧ hasOpen s = true.
Proof.
  intros Hw Htimer Hrun Hstore.
  pose proof (timerMirrorsSession_after calls w Hw) as Hmirror.
  unfold timerMirrorsSession in Hmirror. rewrite Htimer in Hmirror.
  destruct Hmirror as [Hshape (s0 & Hs0 & _ & Hivs)].
  unfold timerShape in Hshape. rewrite Hrun in Hshape.
  destruct Hshape as (closed & start & Hclosed & _).
  assert (s0 ∈ sessions) as Hin by (apply Hstore; eauto).
  assert (hasOpen s0 = true) as Hopen.
  { apply hasOpen_true. exists {| iv_start := start; iv_end := None |}.
    split; [|done]. rewrite Hivs, Hclosed. apply elem_of_app. right. by left. }
  destruct (findInterruptedSession sessions) as [s|] eqn:Hfind.
  - exists s. split; [done|].
    unfold findInterruptedSession in Hfind. case_bool_decide; [done|].
    apply head_sortBy_least in Hfind as [Hs _];
      [|apply compareStart_trans | apply compareStart_total].
    by apply list_elem_of_filter in Hs as [? _].
  - exfalso. unfold findInterruptedSession in Hfind.
    assert (s0 ∈ filter (λ s, hasOpen s = true) sessions) as Hf
      by by apply list_elem_of_filter.
    case_bool_decide as Hlen.
    + apply nil_length_inv in Hlen. rewrite Hlen in Hf. by apply elem_of_nil in Hf.
    + destruct (filter _ sessions) as [|x l] eqn:Hl; [done|].
      assert (x ∈ sortBy compareStart (x :: l)) as Hx
        by (apply elem_of_sortBy; by left).
      destruct (sortBy compareStart (x :: l)); [by apply elem_of_nil in Hx | done].
Qed.

(** *** helpers.ts: calculateSessionDuration *)

(** X21. The two session lengths, [calculateSessionDuration] of the helpers
    and [sessionTotalMs] of the timing screen, agree on a session none of
    whose intervals ends at timestamp 0. *)
Theorem calculateSessionDuration_sessionTotalMs now s :
  Forall (λ iv, iv_end iv ≠ Some 0) (s_intervals s) →
  calculateSessionDuration now s = sessionTotalMs now s.
Proof.
  unfold calculateSessionDuration, sessionTotalMs. intros Hends. generalize 0.
  induction Hends as [|iv ivs Hiv _ IH]; intros a; simpl; [done|].
  rewrite <- IH. f_equal. f_equal. f_equal.
  destruct (iv_end iv) as [e|]; simpl; [|done].
  rewrite bool_decide_eq_false_2 by congruence. done.
Qed.

(** *** Memory and storage *)

Lemma inSync_storeCall k w : inSync w → inSync (storeCall k w).2.
Proof.
  destruct k as [k|now session|session|id]; simpl.
  - apply inSync_call.
  - apply inSync_closeInterrupted.
  - apply inSync_upsertSession.
  - apply inSync_deleteSession.
Qed.

(** X22. Whatever calls are made, and whether storage takes the writes or
    refuses them, the sessions in memory stay those in storage, one per id. *)
Theorem memory_matches_storage calls w :
  inSync w → inSync (afterStore calls w).
Proof.
  unfold afterStore. revert w.
  induction calls as [|k calls IH]; intros w Hw; [done|].
  simpl. apply IH. by apply inSync_storeCall.
Qed.

Lemma memory_matches_storage_witness :
  inSync freshWorld
  ∧ inSync (afterStore [ CallTimer (CallStart 1000 "s1" "email");
                         CallTimer (CallRun 61000 Pause);
                         CallDeleteSession "s1" ] freshWorld).
Proof.
  split; [exact inSync_freshWorld|].
  apply memory_matches_storage. exact inSync_freshWorld.
Defined.

(** *** The timer and its session *)

(** X23. After any sequence of starts, pauses, resumes, stops, resumptions
    of an interrupted session and dismissals, a timer is running or paused,
    its session is stored with the same task and the same intervals, while
    it runs its last interval and no other is open, while it is paused none
    is, and [elapsedMs] is the length of the closed ones. *)
Theorem timer_and_session_stay_aligned calls w timer :
  timerMirrorsSession w →
  st_timer (w_app (after calls w)) = Some timer →
  timerShape timer
  ∧ ∃ s, w_db (after calls w) !! t_sessionId timer = Some s
         ∧ s_taskId s = t_taskId timer
         ∧ s_intervals s = t_intervals timer.
Proof.
  intros Hw Htimer.
  pose proof (timerMirrorsSession_after calls w Hw) as Hmirror.
  unfold timerMirrorsSession in Hmirror. by rewrite Htimer in Hmirror.
Qed.

Lemma timer_and_session_stay_aligned_witness :
  let calls := [ CallStart 1000 "s1" "email"; CallRun 61000 Pause;
                 CallRun 121000 Resume ] in
  timerMirrorsSession freshWorld
  ∧ ∃ timer, st_timer (w_app (after calls freshWorld)) = Some timer
             ∧ timerShape timer.
Proof.
  intros calls. split; [exact timerMirrorsSession_freshWorld|].
  eexists. split; [reflexivity|].
  exact (proj1 (timer_and_session_stay_aligned calls freshWorld _
                  timerMirrorsSession_freshWorld eq_refl)).
Defined.

Lemma pause_resume_takes_out_the_gap_witness :
  let w := (startTimer 1000 "s1" "email" freshWorld).2 in
  getElapsedMs 200000 (w_app (resumeTimer 121000 (pauseTimer 61000 w).2).2)
  = getElapsedMs 200000 (w_app w) - (121000 - 61000).
Proof.
  intros w.
  eapply (pause_resume_takes_out_the_gap 200000 61000 121000 w _ 1000);
    [reflexivity | reflexivity | reflexivity | done | done | reflexivity].
Defined.

Lemma running_timer_is_found_on_reload_witness :
  let calls := [ CallStart 1000 "s1" "email" ] in
  let session := {| s_id := "s1"; s_taskId := "email";
                    s_intervals := [ {| iv_start := 1000; iv_end := None |} ];
                    s_note := None |} in
  timerMirrorsSession freshWorld
  ∧ holdsStore (after calls freshWorld) [session]
  ∧ ∃ s, findInterruptedSession [session] = Some s ∧ hasOpen s = true.
Proof.
  intros calls session.
  assert (holdsStore (after calls freshWorld) [session]) as Hstore.
  { intros s. change (w_db (after calls freshWorld)) with
      (<["s1" := session]> (∅ : gmap string Session)).
    rewrite list_elem_of_singleton. split.
    - intros ->. exists "s1". apply lookup_insert_eq.
    - intros [id Hid]. apply lookup_insert_Some in Hid as [[_ <-]|[_ Hid]]; [done|].
      by rewrite lookup_empty in Hid. }
  split; [exact timerMirrorsSession_freshWorld|]. split; [exact Hstore|].
  exact (running_timer_is_found_on_reload calls freshWorld _ [session]
           timerMirrorsSession_freshWorld eq_refl eq_refl Hstore).
Defined.

Lemma calculateSessionDuration_sessionTotalMs_witness :
  calculateSessionDuration 200000 (twoIntervals 1000 "s1" "email") = 120000.
Proof.
  rewrite (calculateSessionDuration_sessionTotalMs 200000
             (twoIntervals 1000 "s1" "email")).
  - reflexivity.
  - repeat constructor; discriminate.
Defined.



(** ** The duration formatters *)

(** X25. The two formatters write a duration that is not negative the same
    way; the duration is a whole number of milliseconds below 2^53, where
    the arithmetic of the language on it is exact. *)
Theorem fmtDuration_formatDuration ms :
  0 ≤ ms < 2 ^ 53 → fmtDuration ms false = formatDuration ms.
Proof.
  intros [Hms _]. unfold fmtDuration, formatDuration.
  set (sec := ms `div` 1000).
  assert (0 ≤ sec) as Hsec by (apply Z.div_pos; lia). clearbody sec.
  assert (sec `div` 3600 = (sec `div` 60) `div` 60) as Hh
    by (rewrite Z.div_div by lia; done).
  assert ((sec `rem` 3600) `div` 60 = (sec `div` 60) `rem` 60) as Hm
    by (Z.to_euclidean_division_equations; lia).
  rewrite Hh, Hm. case_bool_decide as Hhours; [done|].
  assert ((sec `div` 60) `rem` 60 = sec `div` 60) as ->
    by (Z.to_euclidean_division_equations; lia).
  case_bool_decide as Hmin; [done|].
  assert (sec `rem` 60 = sec) as ->
    by (Z.to_euclidean_division_equations; lia).
  done.
Qed.

Lemma fmtDuration_formatDuration_witness :
  0 ≤ 3725000 < 2 ^ 53 ∧ fmtDuration 3725000 false = "1h 2m"
  ∧ formatDuration 3725000 = "1h 2m".
Proof.
  assert (0 ≤ 3725000 < 2 ^ 53) as Hms by (split; by vm_compute).
  split; [exact Hms|]. split; [reflexivity|].
  rewrite <- (fmtDuration_formatDuration 3725000 Hms). reflexivity.
Defined.

(** On a negative duration of a minute or more the two differ: the one
    writes the seconds of the last minute, the other all the seconds. *)
Lemma fmtDuration_formatDuration_negative :
  fmtDuration (-61000) false = "-1s" ∧ formatDuration (-61000) = "-61s".
Proof. split; reflexivity. Qed.

(** ** The path of an item *)

Lemma getItemPath_loop_acc fuel items currentId path :
  getItemPath_loop fuel items currentId path
  = (λ p, p ++ path) <$> getItemPath_loop fuel items currentId [].
Proof.
  revert currentId path. induction fuel as [|n IH]; intros cur path; [done|].
  simpl. destruct cur as [c|]; [|done].
  case_bool_decide; [done|]. destruct (findItem items c) as [item|]; [|done].
  rewrite (IH _ (i_name item :: path)), (IH _ [i_name item]).
  destruct (getItemPath_loop n items (i_parentId item) []) as [p|]; simpl; [|done].
  by rewrite <- app_assoc.
Qed.

(** X26. The path of an item is the path of its parent followed by its own
    name, and its path string is the parent's path joined by slashes; the
    walk from the item ends exactly when the walk from the parent does, one
    turn later. *)
Theorem getItemPath_extends_parent_path fuel items itemId item parentId :
  itemId ≠ "" → findItem items itemId = Some item →
  i_parentId item = Some parentId →
  getItemPath (S fuel) items itemId
  = (λ path, path ++ [i_name item]) <$> getItemPath fuel items parentId
  ∧ getItemPathString (S fuel) items itemId
    = join "/" <$> getItemPath fuel items parentId.
Proof.
  intros Hid Hitem Hparent.
  assert (getItemPath (S fuel) items itemId
          = (λ path, path ++ [i_name item]) <$> getItemPath fuel items parentId)
    as Hpath.
  { unfold getItemPath. simpl. rewrite bool_decide_eq_false_2 by done.
    rewrite Hitem, Hparent. apply getItemPath_loop_acc. }
  split; [done|]. unfold getItemPathString. rewrite Hpath.
  destruct (getItemPath fuel items parentId) as [path|]; simpl; [|done].
  f_equal. rewrite length_app. simpl.
  destruct path as [|x rest]; [done|].
  rewrite bool_decide_eq_true_2 by (simpl; lia). f_equal.
  replace (length (x :: rest) + 1 - 1)%nat with (length (x :: rest)) by lia.
  by rewrite take_app_length.
Qed.

Lemma getItemPath_extends_parent_path_witness :
  getItemPath 4 itemTree "calls" = Some ["Work"; "Sub"; "Calls"]
  ∧ getItemPathString 4 itemTree "calls" = Some "Work/Sub".
Proof.
  destruct (getItemPath_extends_parent_path 3 itemTree "calls"
              {| i_id := "calls"; i_name := "Calls"; i_color := "#E63946";
                 i_parentId := Some "sub"; i_type := kind_task |} "sub")
    as [Hpath Hstring]; [done | reflexivity | reflexivity |].
  rewrite Hpath, Hstring. split; reflexivity.
Defined.

(** X27. An id that is empty or not in the list has the empty path; an item
    without a parent has its name as its path; both have the empty path
    string. *)
Theorem getItemPath_roots fuel items itemId :
  (itemId = "" ∨ findItem items itemId = None →
   getItemPath (S fuel) items itemId = Some []
   ∧ getItemPathString (S fuel) items itemId = Some "")
  ∧ ∀ item, itemId ≠ "" → findItem items itemId = Some item →
            i_parentId item = None →
            getItemPath (S (S fuel)) items itemId = Some [i_name item]
            ∧ getItemPathString (S (S fuel)) items itemId = Some "".
Proof.
  split.
  - intros Hnone. unfold getItemPathString, getItemPath. simpl.
    case_bool_decide as Hid; [done|]. destruct Hnone as [?|Hnone]; [done|].
    by rewrite Hnone.
  - intros item Hid Hitem Hparent. unfold getItemPathString, getItemPath. simpl.
    rewrite bool_decide_eq_false_2 by done. by rewrite Hitem, Hparent.
Qed.

(** ** The tasks under a category *)

Lemma turns_mono b n n' : (n ≤ n')%nat → (turns b n ≤ turns b n')%nat.
Proof.
  induction 1 as [|m _ IH]; [done|]. simpl.
  destruct b as [|b]; simpl; [destruct n; simpl; lia|]. nia.
Qed.

Lemma cost_app b rank l1 l2 :
  cost b rank (l1 ++ l2) = (cost b rank l1 + cost b rank l2)%nat.
Proof.
  unfold cost. induction l1 as [|x l1 IH]; csimpl; [done|]. rewrite IH. lia.
Qed.

Lemma cost_children items rank q :
  ranked items rank →
  (cost (length items) rank
     (i_id <$> filter (λ child, i_type child ≠ kind_task) (getItemChildren items q))
   + 1 ≤ turns (length items) (rank q))%nat.
Proof.
  intros Hrank. unfold cost, getItemChildren.
  destruct (rank q) as [|n] eqn:Hq.
  - assert (filter (λ child, i_type child ≠ kind_task)
              (filter (λ item, i_parentId item = Some q) items) = []) as ->; [|done].
    destruct (filter _ (filter _ items)) as [|x l] eqn:Hf; [done|]. exfalso.
    assert (x ∈ filter (λ child, i_type child ≠ kind_task)
                  (filter (λ item, i_parentId item = Some q) items)) as Hx
      by (rewrite Hf; by left).
    apply list_elem_of_filter in Hx as [Hty Hx].
    apply list_elem_of_filter in Hx as [Hp Hx].
    pose proof (Hrank x q Hx Hty Hp). lia.
  - simpl.
    assert (∀ l : list Item,
              (∀ x, x ∈ l → x ∈ items ∧ i_type x ≠ kind_task ∧ i_parentId x = Some q) →
              (sum_list ((λ q0, turns (length items) (rank q0)) <$> (i_id <$> l))
               ≤ length l * turns (length items) n)%nat) as Hsum.
    { induction l as [|x l IH]; intros Hl; csimpl; [lia|].
      destruct (Hl x) as (Hx & Hty & Hp); [by left|].
      pose proof (Hrank x q Hx Hty Hp) as Hlt.
      pose proof (turns_mono (length items) (rank (i_id x)) n ltac:(lia)).
      assert (sum_list ((λ q0, turns (length items) (rank q0)) <$> (i_id <$> l))
              ≤ length l * turns (length items) n)%nat
        by (apply IH; intros y Hy; apply Hl; by right).
      lia. }
    set (kids := filter (λ child, i_type child ≠ kind_task)
                   (filter (λ item, i_parentId item = Some q) items)).
    assert (length kids ≤ length items)%nat as Hlen.
    { unfold kids. etrans; [apply length_filter|]. apply length_filter. }
    pose proof (Hsum kids) as Hk.
    assert (sum_list ((λ q0, turns (length items) (rank q0)) <$> (i_id <$> kids))
            ≤ length kids * turns (length items) n)%nat as Hle.
    { apply Hk. intros x Hx. unfold kids in Hx.
      apply list_elem_of_filter in Hx as [Hty Hx].
      by apply list_elem_of_filter in Hx as [Hp Hx]. }
    nia.
Qed.

Lemma descend_returns items rank fuel queue taskIds :
  ranked items rank →
  (cost (length items) rank queue < fuel)%nat →
  is_Some (descend fuel items queue taskIds).
Proof.
  intros Hrank. revert queue taskIds.
  induction fuel as [|n IH]; intros queue taskIds Hcost; [lia|].
  simpl. destruct queue as [|q rest]; [by eexists|].
  apply IH. rewrite cost_app.
  pose proof (cost_children items rank q Hrank) as Hq.
  change (cost (length items) rank (q :: rest))
    with (turns (length items) (rank q) + cost (length items) rank rest)%nat
    in Hcost.
  lia.
Qed.

Lemma descend_closed items c fuel done_ queue taskIds result :
  closedUnder items c done_ queue taskIds →
  descend fuel items queue taskIds = Some result →
  ∃ done', closedUnder items c done' [] result.
Proof.
  revert done_ queue taskIds.
  induction fuel as [|n IH]; intros done_ queue taskIds Hinv Hres; [done|].
  simpl in Hres. destruct queue as [|q rest].
  { injection Hres as <-. by exists done_. }
  apply (IH (done_ ++ [q])) in Hres; [done|]. clear IH Hres.
  destruct Hinv as (Hc & Hbelow & Htasks & Hclosed).
  assert (∀ x, x ∈ done_ ++ q :: rest → x ∈ (done_ ++ [q]) ++ rest
               ++ (i_id <$> filter (λ child, i_type child ≠ kind_task)
                              (getItemChildren items q))) as Hmove.
  { intros x. rewrite !elem_of_app, elem_of_cons, list_elem_of_singleton. tauto. }
  split; [by apply Hmove|]. split; [|split].
  - intros x. rewrite <- app_assoc. simpl.
    rewrite elem_of_app, elem_of_cons, elem_of_app.
    intros [Hx|[->|[Hx|Hx]]].
    + apply Hbelow, elem_of_app. by left.
    + apply Hbelow, elem_of_app. right. by left.
    + apply Hbelow, elem_of_app. right. by right.
    + apply list_elem_of_fmap in Hx as (item & -> & Hitem).
      apply list_elem_of_filter in Hitem as [Hty Hitem].
      apply list_elem_of_filter in Hitem as [Hp Hitem].
      apply (below_child items c q); [|done..].
      apply Hbelow, elem_of_app. right. by left.
  - intros id. rewrite elem_of_app. intros [Hid|Hid]; [by apply Htasks|].
    apply list_elem_of_fmap in Hid as (item & -> & Hitem).
    apply list_elem_of_filter in Hitem as [Hty Hitem].
    apply list_elem_of_filter in Hitem as [Hp Hitem].
    exists q, item. split; [|done].
    apply Hbelow, elem_of_app. right. by left.
  - intros p item. rewrite elem_of_app, list_elem_of_singleton.
    intros [Hp| ->] Hitem Hparent.
    + specialize (Hclosed p item Hp Hitem Hparent). case_decide.
      * apply elem_of_app. by left.
      * by apply Hmove.
    + case_decide as Hty.
      * apply elem_of_app. right. apply list_elem_of_fmap. exists item.
        split; [done|]. apply list_elem_of_filter. split; [done|].
        by apply list_elem_of_filter.
      * rewrite <- app_assoc. simpl. rewrite elem_of_app, elem_of_cons, elem_of_app.
        right. right. right. apply list_elem_of_fmap. exists item.
        split; [done|]. apply list_elem_of_filter. split; [done|].
        by apply list_elem_of_filter.
Qed.

(** X28. When the parent links of the categories have no cycle the breadth-
    first walk ends, and when it ends its result holds exactly the tasks
    under the category: the tasks whose parent is the category or a category
    below it. *)
Theorem getAllDescendantTaskIds_tasks_under items rank categoryId :
  ranked items rank →
  (∃ fuel, is_Some (getAllDescendantTaskIds fuel items categoryId))
  ∧ ∀ fuel result,
      getAllDescendantTaskIds fuel items categoryId = Some result →
      ∀ id, id ∈ result ↔ taskUnder items categoryId id.
Proof.
  intros Hrank. split.
  - exists (S (cost (length items) rank [categoryId])).
    apply (descend_returns items rank); [done | lia].
  - intros fuel result Hres id.
    destruct (descend_closed items categoryId fuel [] [categoryId] [] result)
      as (done' & Hc & Hbelow & Htasks & Hclosed); [|done|].
    { split; [by left|]. split; [|split].
      - intros q ->%list_elem_of_singleton. constructor.
      - by intros ? ?%elem_of_nil.
      - by intros ? ? ?%elem_of_nil. }
    rewrite app_nil_r in *. split; [apply Htasks|].
    intros (q & t & Hq & Ht & Hp & Hty & <-).
    assert (q ∈ done') as Hdone.
    { clear Hp. induction Hq as [|q item _ IH Hitem Hp Hnot]; [done|].
      specialize (Hclosed q item IH Hitem Hp). by rewrite decide_False in Hclosed. }
    specialize (Hclosed q t Hdone Ht Hp). by rewrite decide_True in Hclosed.
Qed.

Lemma itemTree_ranked : ranked itemTree itemTreeRank.
Proof.
  intros item q Hitem Hty Hp. unfold itemTree in Hitem.
  repeat (apply elem_of_cons in Hitem as [->|Hitem];
          [simpl in *; try done; injection Hp as <-; vm_compute; lia|]).
  by apply elem_of_nil in Hitem.
Qed.

Lemma getAllDescendantTaskIds_tasks_under_witness :
  ranked itemTree itemTreeRank
  ∧ getAllDescendantTaskIds 3 itemTree "work" = Some ["email"; "calls"]
  ∧ taskUnder itemTree "work" "calls".
Proof.
  split; [exact itemTree_ranked|]. split; [reflexivity|].
  destruct (getAllDescendantTaskIds_tasks_under itemTree itemTreeRank "work"
              itemTree_ranked) as [_ Hexact].
  apply (Hexact 3%nat ["email"; "calls"] eq_refl "calls").
  apply elem_of_cons. right. apply elem_of_cons. by left.
Defined.
